(** * The expression calculator, embedded in Rocq

    The pipeline of the calculator is

      tokenize -> handleUnaryMinus -> shuntingYard -> evalRPN -> formatResult

    and [calculate] runs it and turns a thrown [Error] into the string
    ["ERROR: " ++ message].  Every function of that pipeline is embedded
    below under its own name.  JavaScript values are modelled as follows:

    - a string is a [string]; inside the functions it is handled as the
      list of its characters ([list ascii]), a character standing for the
      code unit of the same number (0 to 255);
    - a number is an IEEE 754 binary64 value, [spec_float] with precision
      53 and maximal exponent 1024, and the arithmetic of the language is
      the correctly rounded arithmetic of [SpecFloat];
    - a thrown [Error] is the [Err] case of [result], carrying the message;
    - an array used as a stack is a list whose head is the top of the
      stack; the output queue is a list in queue order. *)

From Stdlib Require Import ZArith List String Ascii Bool Lia.
From Stdlib Require Import Floats.SpecFloat DecimalString.
From Equations Require Import Equations.
Import ListNotations.

Local Open Scope Z_scope.
Local Open Scope list_scope.

(** ** Characters *)

(** [/\d/.test(c)]: the ten ASCII digits. *)
Definition isDigit (c : ascii) : bool :=
  let n := N_of_ascii c in (N.leb 48 n && N.leb n 57)%bool.

(** [/\s/] on code units below 256: tab, line feed, vertical tab, form
    feed, carriage return, space and the no-break space. *)
Definition isSpace (c : ascii) : bool :=
  let n := N_of_ascii c in
  (N.leb 9 n && N.leb n 13 || N.eqb n 32 || N.eqb n 160)%bool.

(** The value of a digit character. *)
Definition digitValue (c : ascii) : Z := Z.of_N (N_of_ascii c) - 48.

(** ** Numbers: IEEE 754 binary64 *)

Module JSNumber.

Definition number := spec_float.

Definition prec : Z := 53.
Definition emax : Z := 1024.

Definition NaN : number := S754_nan.
Definition zero : number := S754_zero false.

Definition add : number -> number -> number := SFadd prec emax.
Definition sub : number -> number -> number := SFsub prec emax.
Definition mul : number -> number -> number := SFmul prec emax.
Definition div : number -> number -> number := SFdiv prec emax.
Definition neg : number -> number := SFopp.

(** [x === y] on numbers: false on NaN, true on zeros of either sign. *)
Definition strictEq : number -> number -> bool := SFeqb.

(** The number nearest to the integer [n] (ties to even). *)
Definition ofZ (n : Z) : number := binary_normalize prec emax n 0 false.

(** The number nearest to [m * 10^e], for [0 <= m]. *)
Definition ofDecimal (m e : Z) : number :=
  match m with
  | Zpos p =>
      match e with
      | Zneg _ => div (S754_finite false p 0)
                      (S754_finite false (Z.to_pos (10 ^ (- e))) 0)
      | _ => ofZ (m * 10 ^ e)
      end
  | _ => zero
  end.

(** [Math.floor]. *)
Definition floor (x : number) : number :=
  match x with
  | S754_finite s m e =>
      match e with
      | Zneg _ =>
          let q := Z.shiftr (Zpos m) (- e) in
          let exact := Z.eqb (Z.shiftl q (- e)) (Zpos m) in
          if s then ofZ (- (if exact then q else q + 1))
          else ofZ q
      | _ => x
      end
  | _ => x
  end.

(** Structural equality of two numbers (the same value, zeros of
    different sign apart). *)
Definition same (x y : number) : bool :=
  match x, y with
  | S754_zero s1, S754_zero s2 => Bool.eqb s1 s2
  | S754_infinity s1, S754_infinity s2 => Bool.eqb s1 s2
  | S754_nan, S754_nan => true
  | S754_finite s1 m1 e1, S754_finite s2 m2 e2 =>
      (Bool.eqb s1 s2 && Pos.eqb m1 m2 && Z.eqb e1 e2)%bool
  | _, _ => false
  end.

(** *** [parseFloat]

    The longest prefix of the form [digits], [digits.digits], [digits.]
    or [.digits] is read as a decimal numeral and rounded to the nearest
    number; [NaN] when there is no such prefix.  Signs, exponents,
    leading blanks and [Infinity] are not modelled: [tokenize] only
    passes runs of digits with at most one dot. *)

Fixpoint takeDigits (cs : list ascii) : list ascii :=
  match cs with
  | c :: cs' => if isDigit c then c :: takeDigits cs' else []
  | [] => []
  end.

Fixpoint dropDigits (cs : list ascii) : list ascii :=
  match cs with
  | c :: cs' => if isDigit c then dropDigits cs' else cs
  | [] => []
  end.

Definition digitsToZ (ds : list ascii) : Z :=
  fold_left (fun acc c => 10 * acc + digitValue c) ds 0.

Definition parseFloat (cs : list ascii) : number :=
  let ip := takeDigits cs in
  let fp := match dropDigits cs with
            | c :: r => if Ascii.eqb c "." then takeDigits r else []
            | [] => []
            end in
  match ip ++ fp with
  | [] => NaN
  | ds => ofDecimal (digitsToZ ds) (- Z.of_nat (List.length fp))
  end.

(** *** [String(x)]: Number::toString of ECMAScript, radix 10

    For a finite [x > 0] the language takes integers [n], [k >= 1] and
    [s] with [10^(k-1) <= s < 10^k] such that the number nearest to
    [s * 10^(n-k)] is [x], with [k] as small as possible and, among
    those, [s * 10^(n-k)] closest to [x].  The digits of [s] are then
    laid out in decimal notation when [-6 < n <= 21] and in exponent
    notation otherwise. *)

Definition zeros (n : Z) : list ascii := repeat "0"%char (Z.to_nat n).

Definition digitsOfZ (z : Z) : list ascii :=
  list_ascii_of_string (NilZero.string_of_uint (N.to_uint (Z.to_N z))).

Fixpoint dropZeros (cs : list ascii) : list ascii :=
  match cs with
  | c :: cs' => if Ascii.eqb c "0" then dropZeros cs' else cs
  | [] => []
  end.

Definition stripTrailingZeros (ds : list ascii) : list ascii :=
  rev (dropZeros (rev ds)).

(** The digits [ds] with the decimal point after the first [n] of them:
    the value [0.ds * 10^n] in decimal notation. *)
Definition plain (ds : list ascii) (n : Z) : list ascii :=
  let k := Z.of_nat (List.length ds) in
  if k <=? n then ds ++ zeros (n - k)
  else if 0 <? n then firstn (Z.to_nat n) ds ++ "."%char :: skipn (Z.to_nat n) ds
  else "0"%char :: "."%char :: zeros (- n) ++ ds.

(** The same value in exponent notation. *)
Definition expo (ds : list ascii) (n : Z) : list ascii :=
  let e := n - 1 in
  let tail := "e"%char :: (if e <? 0 then "-"%char else "+"%char)
                       :: digitsOfZ (Z.abs e) in
  match ds with
  | [d] => d :: tail
  | d :: ds' => d :: "."%char :: ds' ++ tail
  | [] => tail
  end.

(** [x = num / den > 0]: the [n] with [10^(n-1) <= x < 10^n]. *)
Fixpoint leadingZeros (fuel : nat) (num den : Z) (j : Z) : Z :=
  match fuel with
  | O => j
  | S fuel' => if den <=? num then j
               else leadingZeros fuel' (10 * num) den (j + 1)
  end.

Definition decimalExponent (num den : Z) : Z :=
  if den <=? num then Z.of_nat (List.length (digitsOfZ (num / den)))
  else 1 - leadingZeros 400 (10 * num) den 1.

(** The candidate with [k] digits, if one reads back as [x]: the two
    [k]-digit decimals around [x] are tried, the closer one first
    (the even one on a tie). *)
Definition candidate (x : number) (num den n k : Z)
  : option (list ascii * Z) :=
  let sc := k - n in
  let num' := if 0 <=? sc then num * 10 ^ sc else num in
  let den' := if 0 <=? sc then den else den * 10 ^ (- sc) in
  let lo := num' / den' in
  let hi := lo + 1 in
  let form (s : Z) :=
    let ds := digitsOfZ s in
    (stripTrailingZeros ds, Z.of_nat (List.length ds) + n - k) in
  let ok (s : Z) :=
    let '(ds, p) := form s in same (parseFloat (plain ds p)) x in
  let loFirst :=
    match 2 * num' ?= (2 * lo + 1) * den' with
    | Lt => true
    | Gt => false
    | Eq => Z.even lo
    end in
  let '(s1, s2) := if loFirst then (lo, hi) else (hi, lo) in
  if ok s1 then Some (form s1)
  else if ok s2 then Some (form s2)
  else None.

Fixpoint shortest (fuel : nat) (x : number) (num den n k : Z)
  : option (list ascii * Z) :=
  match fuel with
  | O => None
  | S fuel' =>
      match candidate x num den n k with
      | Some r => Some r
      | None => shortest fuel' x num den n (k + 1)
      end
  end.

(** Seventeen significant digits determine a binary64 number, so the
    search over [k] stops there.  [None] stands for a search that found
    nothing; that is not expected of any binary64 value, but it is not
    proved here, and [toStringPos] prints ["NaN"] in that case to stay
    total.  No property below depends on that choice other than through
    the test for decimal notation, which ["NaN"] fails. *)
Definition digitsOf (m : positive) (e : Z) : option (list ascii * Z) :=
  let num := match e with Zneg _ => Zpos m | _ => Zpos m * 2 ^ e end in
  let den := match e with Zneg _ => 2 ^ (- e) | _ => 1 end in
  shortest 17 (S754_finite false m e) num den (decimalExponent num den) 1.

Definition toStringPos (m : positive) (e : Z) : list ascii :=
  match digitsOf m e with
  | Some (ds, n) =>
      if ((-6 <? n) && (n <=? 21))%bool then plain ds n else expo ds n
  | None => list_ascii_of_string "NaN"
  end.

Definition toString (x : number) : list ascii :=
  match x with
  | S754_nan => list_ascii_of_string "NaN"
  | S754_zero _ => list_ascii_of_string "0"
  | S754_infinity s =>
      (if s then ["-"%char] else []) ++ list_ascii_of_string "Infinity"
  | S754_finite s m e =>
      (if s then ["-"%char] else []) ++ toStringPos m e
  end.

End JSNumber.

Import JSNumber.

(** ** Errors: [throw new Error(message)] *)

Inductive result (A : Type) : Type :=
| Ok (value : A)
| Err (message : string).

Arguments Ok {A} value.
Arguments Err {A} message.

Definition bind {A B : Type} (r : result A) (k : A -> result B) : result B :=
  match r with
  | Ok a => k a
  | Err m => Err m
  end.

Notation "x <- r ;; k" := (bind r (fun x => k))
  (at level 61, r at next level, right associativity).

(** ** Tokens

    A token of the source is a number or one of the strings
    ['+' '-' '*' '/' '(' ')' 'NEG']. *)

Inductive Token : Type :=
| Num (x : number)
| Plus
| Minus
| Times
| Slash
| NEG
| LParen
| RParen.

Definition isNumber (t : Token) : bool :=
  match t with Num _ => true | _ => false end.

Definition isLParen (t : Token) : bool :=
  match t with LParen => true | _ => false end.

Definition isRParen (t : Token) : bool :=
  match t with RParen => true | _ => false end.

(** ** tokenize *)

(** [expr.replace(/\s+/g, "")] *)
Definition removeWhitespace (cs : list ascii) : list ascii :=
  filter (fun c => negb (isSpace c)) cs.

(** The guard of the number branch at position [i], [cs] being the text
    from [i] on: a digit, or a dot followed by a digit. *)
Definition startsNumber (cs : list ascii) : bool :=
  match cs with
  | c :: cs' =>
      (isDigit c ||
       (Ascii.eqb c "." &&
        match cs' with d :: _ => isDigit d | [] => false end))%bool
  | [] => false
  end.

(** The inner loop on [j]: the text between [i] and [j], and the text
    from [j] on. *)
Fixpoint scanNumber (hasDot : bool) (cs : list ascii)
  : list ascii * list ascii :=
  match cs with
  | c :: cs' =>
      if (isDigit c || (Ascii.eqb c "." && negb hasDot))%bool then
        let '(run, rest) :=
          scanNumber (if Ascii.eqb c "." then true else hasDot) cs' in
        (c :: run, rest)
      else ([], cs)
  | [] => ([], [])
  end.

(** ["+-*/()".includes(char)], and the token pushed for it. *)
Definition symbolToken (c : ascii) : option Token :=
  if Ascii.eqb c "+" then Some Plus
  else if Ascii.eqb c "-" then Some Minus
  else if Ascii.eqb c "*" then Some Times
  else if Ascii.eqb c "/" then Some Slash
  else if Ascii.eqb c "(" then Some LParen
  else if Ascii.eqb c ")" then Some RParen
  else None.

(** Each round of the inner loop moves [j] on, so the text left after a
    number is shorter than the text the number started in. *)
Lemma scanNumber_rest_le (hasDot : bool) (cs : list ascii) :
  (List.length (snd (scanNumber hasDot cs)) <= List.length cs)%nat.
Proof.
  revert hasDot; induction cs as [|c cs IH]; intros hasDot; simpl; [lia|].
  destruct (isDigit c || (Ascii.eqb c "." && negb hasDot))%bool; simpl; [|lia].
  specialize (IH (if Ascii.eqb c "." then true else hasDot)).
  destruct (scanNumber _ cs) as [run rest]; simpl in *; lia.
Qed.

Lemma scanNumber_progress (cs : list ascii) :
  startsNumber cs = true ->
  (List.length (snd (scanNumber false cs)) < List.length cs)%nat.
Proof.
  destruct cs as [|c cs]; [discriminate|]; intros H.
  assert (G : (isDigit c || (Ascii.eqb c "." && negb false))%bool = true).
  { simpl in H. destruct (isDigit c); simpl in *; [reflexivity|].
    destruct (Ascii.eqb c "."); simpl in *; [reflexivity|discriminate]. }
  cbn [scanNumber]. rewrite G.
  pose proof (scanNumber_rest_le (if Ascii.eqb c "." then true else false) cs) as L.
  destruct (scanNumber _ cs) as [run rest]; simpl in *; lia.
Qed.

(** The loop of [tokenize] on [i], [cs] being the text from [i] on. *)
Equations? tokenizeLoop (cs : list ascii) (tokens : list Token)
  : result (list Token) by wf (List.length cs) lt :=
  tokenizeLoop [] tokens := Ok tokens;
  tokenizeLoop (c :: cs') tokens with sumbool_of_bool (startsNumber (c :: cs')) := {
    | left _ =>
        tokenizeLoop (snd (scanNumber false (c :: cs')))
          (tokens ++ [Num (parseFloat (fst (scanNumber false (c :: cs'))))]);
    | right _ with symbolToken c := {
        | Some t => tokenizeLoop cs' (tokens ++ [t]);
        | None => Err "Invalid character"%string } }.
Proof.
  exact (scanNumber_progress (c :: cs') e).
Qed.

Definition tokenize (expr : string) : result (list Token) :=
  let exprClean := removeWhitespace (list_ascii_of_string expr) in
  match exprClean with
  | [] => Err "Malformed expression"%string
  | _ => tokenizeLoop exprClean []
  end.

(** ** handleUnaryMinus *)

(** The test on [prevToken]; [None] is the case [i === 0]. *)
Definition unaryContext (prevToken : option Token) : bool :=
  match prevToken with
  | None => true
  | Some LParen | Some Plus | Some Minus | Some Times | Some Slash => true
  | Some _ => false
  end.

(** The loop on [i]; [prevToken] is [tokens[i - 1]] of the input. *)
Fixpoint handleUnaryMinusFrom (prevToken : option Token) (tokens : list Token)
  : list Token :=
  match tokens with
  | [] => []
  | token :: rest =>
      (match token with
       | Minus => if unaryContext prevToken then NEG else token
       | _ => token
       end) :: handleUnaryMinusFrom (Some token) rest
  end.

Definition handleUnaryMinus (tokens : list Token) : list Token :=
  handleUnaryMinusFrom None tokens.

(** ** precedence, isOperator *)

Definition precedence (op : Token) : Z :=
  match op with
  | Plus | Minus => 1
  | Times | Slash => 2
  | NEG => 3
  | _ => 0
  end.

Definition isOperator (t : Token) : bool :=
  match t with
  | Plus | Minus | Times | Slash | NEG => true
  | _ => false
  end.

(** ** shuntingYard *)

(** The [while] of the operator branch: operators of the stack whose
    precedence is at least that of [token] move to the output queue. *)
Fixpoint popOperators (token : Token) (outputQueue operatorStack : list Token)
  : list Token * list Token :=
  match operatorStack with
  | top :: below =>
      if (negb (isLParen top) && isOperator top
          && (precedence token <=? precedence top))%bool
      then popOperators token (outputQueue ++ [top]) below
      else (outputQueue, operatorStack)
  | [] => (outputQueue, [])
  end.

(** The [while] of the right parenthesis branch; the boolean is
    [foundLeft]. *)
Fixpoint popToLeftParen (outputQueue operatorStack : list Token)
  : list Token * list Token * bool :=
  match operatorStack with
  | op :: below =>
      if isLParen op then (outputQueue, below, true)
      else popToLeftParen (outputQueue ++ [op]) below
  | [] => (outputQueue, [], false)
  end.

(** One round of the [for] loop over the tokens. *)
Definition shuntingYardStep (token : Token) (outputQueue operatorStack : list Token)
  : result (list Token * list Token) :=
  if isNumber token then Ok (outputQueue ++ [token], operatorStack)
  else if isOperator token then
    let '(outputQueue', operatorStack') :=
      popOperators token outputQueue operatorStack in
    Ok (outputQueue', token :: operatorStack')
  else if isLParen token then Ok (outputQueue, token :: operatorStack)
  else if isRParen token then
    match popToLeftParen outputQueue operatorStack with
    | (outputQueue', operatorStack', true) => Ok (outputQueue', operatorStack')
    | (_, _, false) => Err "Mismatched parentheses"%string
    end
  else Ok (outputQueue, operatorStack).

Fixpoint shuntingYardLoop (tokens : list Token) (outputQueue operatorStack : list Token)
  : result (list Token * list Token) :=
  match tokens with
  | [] => Ok (outputQueue, operatorStack)
  | token :: rest =>
      st <- shuntingYardStep token outputQueue operatorStack ;;
      shuntingYardLoop rest (fst st) (snd st)
  end.

(** The final [while]: the remaining operators go to the output queue. *)
Fixpoint popRemaining (outputQueue operatorStack : list Token)
  : result (list Token) :=
  match operatorStack with
  | op :: below =>
      if (isLParen op || isRParen op)%bool
      then Err "Mismatched parentheses"%string
      else popRemaining (outputQueue ++ [op]) below
  | [] => Ok outputQueue
  end.

Definition shuntingYard (tokens : list Token) : result (list Token) :=
  st <- shuntingYardLoop tokens [] [] ;;
  popRemaining (fst st) (snd st).

Definition toRPN (tokens : list Token) : result (list Token) :=
  let processedTokens := handleUnaryMinus tokens in
  shuntingYard processedTokens.

(** ** applyOperator, evalRPN *)

(** [operands[i]]; a missing element is [undefined], which arithmetic
    turns into [NaN]. *)
Definition operand (operands : list number) (i : nat) : number :=
  nth i operands NaN.

Definition applyOperator (op : Token) (operands : list number) : result number :=
  match op with
  | Plus => Ok (add (operand operands 1) (operand operands 0))
  | Minus => Ok (sub (operand operands 1) (operand operands 0))
  | Times => Ok (mul (operand operands 1) (operand operands 0))
  | Slash =>
      if strictEq (operand operands 0) zero
      then Err "Division by zero"%string
      else Ok (div (operand operands 1) (operand operands 0))
  | NEG => Ok (neg (operand operands 0))
  | _ => Err "Malformed expression"%string
  end.

(** One round of the [for] loop of [evalRPN]; the head of [stack] is the
    value pushed last. *)
Definition evalStep (token : Token) (stack : list number) : result (list number) :=
  match token with
  | Num x => Ok (x :: stack)
  | _ =>
      if isOperator token then
        match token with
        | NEG =>
            match stack with
            | operand :: below =>
                r <- applyOperator token [operand] ;;
                Ok (r :: below)
            | [] => Err "Malformed expression"%string
            end
        | _ =>
            match stack with
            | right' :: left' :: below =>
                r <- applyOperator token [right'; left'] ;;
                Ok (r :: below)
            | _ => Err "Malformed expression"%string
            end
        end
      else Ok stack
  end.

Fixpoint evalLoop (rpn : list Token) (stack : list number) : result (list number) :=
  match rpn with
  | [] => Ok stack
  | token :: rest =>
      stack' <- evalStep token stack ;;
      evalLoop rest stack'
  end.

Definition evalRPN (rpn : list Token) : result number :=
  stack <- evalLoop rpn [] ;;
  match stack with
  | [x] => Ok x
  | _ => Err "Malformed expression"%string
  end.

(** ** formatResult, calculate *)

Definition formatResult (x : number) : string :=
  if strictEq x (floor x)
  then string_of_list_ascii (toString (floor x))
  else string_of_list_ascii (toString x).

(** The body of the [try] block. *)
Definition evaluate (expr : string) : result number :=
  tokens <- tokenize expr ;;
  rpn <- toRPN tokens ;;
  evalRPN rpn.

Definition calculate (expr : string) : string :=
  match evaluate expr with
  | Ok x => formatResult x
  | Err message => ("ERROR: " ++ message)%string
  end.

(** * Notions used to state the properties *)

(** ** Predicates on characters, tokens and messages *)

(** The rule of the unary minus in words: the token at index [i] stands
    first, or right after a [(] or one of the binary operators. *)
Definition unaryPosition (tokens : list Token) (i : nat) : bool :=
  match i with
  | O => true
  | S j =>
      match nth_error tokens j with
      | Some (LParen | Plus | Minus | Times | Slash) => true
      | _ => false
      end
  end.

(** The characters the tokenizer knows: digits, the dot and the six
    symbols. *)
Definition allowedChar (c : ascii) : bool :=
  (isDigit c || Ascii.eqb c "." || Ascii.eqb c "+" || Ascii.eqb c "-"
   || Ascii.eqb c "*" || Ascii.eqb c "/" || Ascii.eqb c "("
   || Ascii.eqb c ")")%bool.

(** The first character of a text is a digit, or is a dot. *)
Definition headIsDigit (cs : list ascii) : bool :=
  match cs with
  | c :: _ => isDigit c
  | [] => false
  end.

Definition headIsDot (cs : list ascii) : bool :=
  match cs with
  | c :: _ => Ascii.eqb c "."
  | [] => false
  end.

(** The four messages of the specification. *)
Definition knownMessage (m : string) : Prop :=
  m = "Invalid character"%string \/ m = "Malformed expression"%string \/
  m = "Mismatched parentheses"%string \/ m = "Division by zero"%string.

(** ** Infix arithmetic

    The reference the calculator is compared with: the usual grammar of
    arithmetic expressions,

      expr   ::= term   | expr + term   | expr - term
      term   ::= factor | term * factor | term / factor
      factor ::= atom   | - atom
      atom   ::= digits | ( expr )

    in which [*] and [/] bind tighter than [+] and [-], operators of one
    level group to the left, and a unary minus applies to the atom after
    it.  A value is computed over the numbers of the language; an
    expression that divides by zero has none. *)

Inductive Digit : Type := D0 | D1 | D2 | D3 | D4 | D5 | D6 | D7 | D8 | D9.

Definition digitToChar (d : Digit) : ascii :=
  match d with
  | D0 => "0" | D1 => "1" | D2 => "2" | D3 => "3" | D4 => "4"
  | D5 => "5" | D6 => "6" | D7 => "7" | D8 => "8" | D9 => "9"
  end%char.

Definition digitToZ (d : Digit) : Z :=
  match d with
  | D0 => 0 | D1 => 1 | D2 => 2 | D3 => 3 | D4 => 4
  | D5 => 5 | D6 => 6 | D7 => 7 | D8 => 8 | D9 => 9
  end.

(** The integer a sequence of digits denotes. *)
Definition digitsToInteger (ds : list Digit) : Z :=
  fold_left (fun acc d => 10 * acc + digitToZ d) ds 0.

Inductive Expr : Type :=
| ETerm (t : Term)
| EAdd (e : Expr) (t : Term)
| ESub (e : Expr) (t : Term)
with Term : Type :=
| TFactor (f : Factor)
| TMul (t : Term) (f : Factor)
| TDiv (t : Term) (f : Factor)
with Factor : Type :=
| FAtom (a : Atom)
| FNeg (a : Atom)
with Atom : Type :=
| ALit (d : Digit) (ds : list Digit)
| AParen (e : Expr).

Scheme Expr_mind := Induction for Expr Sort Prop
  with Term_mind := Induction for Term Sort Prop
  with Factor_mind := Induction for Factor Sort Prop
  with Atom_mind := Induction for Atom Sort Prop.

Combined Scheme syntax_mutind from Expr_mind, Term_mind, Factor_mind, Atom_mind.

(** The text of an expression. *)
Fixpoint renderExpr (e : Expr) : list ascii :=
  match e with
  | ETerm t => renderTerm t
  | EAdd e t => renderExpr e ++ "+"%char :: renderTerm t
  | ESub e t => renderExpr e ++ "-"%char :: renderTerm t
  end
with renderTerm (t : Term) : list ascii :=
  match t with
  | TFactor f => renderFactor f
  | TMul t f => renderTerm t ++ "*"%char :: renderFactor f
  | TDiv t f => renderTerm t ++ "/"%char :: renderFactor f
  end
with renderFactor (f : Factor) : list ascii :=
  match f with
  | FAtom a => renderAtom a
  | FNeg a => "-"%char :: renderAtom a
  end
with renderAtom (a : Atom) : list ascii :=
  match a with
  | ALit d ds => map digitToChar (d :: ds)
  | AParen e => "("%char :: renderExpr e ++ [")"%char]
  end.

(** The value of an expression; [None] when it divides by zero. *)
Definition valueDiv (x y : option number) : option number :=
  match x, y with
  | Some a, Some b => if strictEq b zero then None else Some (div a b)
  | _, _ => None
  end.

Definition value2 (f : number -> number -> number) (x y : option number)
  : option number :=
  match x, y with
  | Some a, Some b => Some (f a b)
  | _, _ => None
  end.

Fixpoint valueExpr (e : Expr) : option number :=
  match e with
  | ETerm t => valueTerm t
  | EAdd e t => value2 add (valueExpr e) (valueTerm t)
  | ESub e t => value2 sub (valueExpr e) (valueTerm t)
  end
with valueTerm (t : Term) : option number :=
  match t with
  | TFactor f => valueFactor f
  | TMul t f => value2 mul (valueTerm t) (valueFactor f)
  | TDiv t f => valueDiv (valueTerm t) (valueFactor f)
  end
with valueFactor (f : Factor) : option number :=
  match f with
  | FAtom a => valueAtom a
  | FNeg a => option_map neg (valueAtom a)
  end
with valueAtom (a : Atom) : option number :=
  match a with
  | ALit d ds => Some (ofZ (digitsToInteger (d :: ds)))
  | AParen e => valueExpr e
  end.

(** Expressions without unary minus. *)
Fixpoint binaryOnlyExpr (e : Expr) : bool :=
  match e with
  | ETerm t => binaryOnlyTerm t
  | EAdd e t | ESub e t => binaryOnlyExpr e && binaryOnlyTerm t
  end
with binaryOnlyTerm (t : Term) : bool :=
  match t with
  | TFactor f => binaryOnlyFactor f
  | TMul t f | TDiv t f => binaryOnlyTerm t && binaryOnlyFactor f
  end
with binaryOnlyFactor (f : Factor) : bool :=
  match f with
  | FAtom a => binaryOnlyAtom a
  | FNeg _ => false
  end
with binaryOnlyAtom (a : Atom) : bool :=
  match a with
  | ALit _ _ => true
  | AParen e => binaryOnlyExpr e
  end.

(** The tokens of an expression, [minus] being the token of a unary
    minus: [Minus] as the tokenizer gives it, [NEG] after
    [handleUnaryMinus]. *)
Fixpoint tokensExpr (minus : Token) (e : Expr) : list Token :=
  match e with
  | ETerm t => tokensTerm minus t
  | EAdd e t => tokensExpr minus e ++ Plus :: tokensTerm minus t
  | ESub e t => tokensExpr minus e ++ Minus :: tokensTerm minus t
  end
with tokensTerm (minus : Token) (t : Term) : list Token :=
  match t with
  | TFactor f => tokensFactor minus f
  | TMul t f => tokensTerm minus t ++ Times :: tokensFactor minus f
  | TDiv t f => tokensTerm minus t ++ Slash :: tokensFactor minus f
  end
with tokensFactor (minus : Token) (f : Factor) : list Token :=
  match f with
  | FAtom a => tokensAtom minus a
  | FNeg a => minus :: tokensAtom minus a
  end
with tokensAtom (minus : Token) (a : Atom) : list Token :=
  match a with
  | ALit d ds => [Num (ofZ (digitsToInteger (d :: ds)))]
  | AParen e => LParen :: tokensExpr minus e ++ [RParen]
  end.

(** The postfix form of an expression. *)
Fixpoint postfixExpr (e : Expr) : list Token :=
  match e with
  | ETerm t => postfixTerm t
  | EAdd e t => postfixExpr e ++ postfixTerm t ++ [Plus]
  | ESub e t => postfixExpr e ++ postfixTerm t ++ [Minus]
  end
with postfixTerm (t : Term) : list Token :=
  match t with
  | TFactor f => postfixFactor f
  | TMul t f => postfixTerm t ++ postfixFactor f ++ [Times]
  | TDiv t f => postfixTerm t ++ postfixFactor f ++ [Slash]
  end
with postfixFactor (f : Factor) : list Token :=
  match f with
  | FAtom a => postfixAtom a
  | FNeg a => postfixAtom a ++ [NEG]
  end
with postfixAtom (a : Atom) : list Token :=
  match a with
  | ALit d ds => [Num (ofZ (digitsToInteger (d :: ds)))]
  | AParen e => postfixExpr e
  end.

(** ** Balanced parentheses *)

(** The parentheses of a token sequence match: reading from the left at
    nesting depth [depth], no [)] comes at depth zero and the depth is
    zero at the end. *)
Fixpoint parenDepthOk (depth : nat) (tokens : list Token) : bool :=
  match tokens with
  | [] => Nat.eqb depth 0
  | LParen :: rest => parenDepthOk (S depth) rest
  | RParen :: rest =>
      match depth with
      | O => false
      | S d => parenDepthOk d rest
      end
  | _ :: rest => parenDepthOk depth rest
  end.

Definition balanced (tokens : list Token) : bool := parenDepthOk 0 tokens.

(** The number of [(] on the operator stack. *)
Definition openParens (stk : list Token) : nat :=
  List.length (filter isLParen stk).

(** What the converter puts on the operator stack: operators and [(]. *)
Definition stackToken (t : Token) : bool := (isOperator t || isLParen t)%bool.

Definition failed {A : Type} (r : result A) : bool :=
  match r with
  | Ok _ => false
  | Err _ => true
  end.

(** The number of values an operator takes from the stack. *)
Definition operandsTaken (op : Token) : nat :=
  match op with
  | NEG => 1
  | _ => 2
  end.

(** ** Statements about the stages on the tokens of an expression *)

(** In a position where a minus would be unary, the pass turns the
    tokens [raw] into [normal] and goes on after a token [last] behind
    which a minus is binary. *)
Definition unaryPassStatement (raw normal : list Token) : Prop :=
  forall (prevToken : option Token) (rest : list Token),
    unaryContext prevToken = true ->
    exists last : Token,
      unaryContext (Some last) = false /\
      handleUnaryMinusFrom prevToken (raw ++ rest) =
      normal ++ handleUnaryMinusFrom (Some last) rest.

(** The [while] of the operator branch stops at the stack [stk] for an
    incoming operator of precedence [p]. *)
Definition stopsAt (p : Z) (stk : list Token) : bool :=
  match stk with
  | [] => true
  | top :: _ =>
      negb (negb (isLParen top) && isOperator top && (p <=? precedence top))
  end.

(** Operators waiting on the stack that an incoming operator of
    precedence [p] moves to the output. *)
Definition pendingAt (p : Z) (pend : list Token) : Prop :=
  Forall (fun o => isOperator o = true /\ p <= precedence o) pend.

(** Started on a stack at which operators of precedence [p] stop, the
    loop moves [body] to the output and leaves [pend] on the stack, both
    together being the postfix form. *)
Definition yardStatement (p : Z) (tokens postfix : list Token) : Prop :=
  forall out stk : list Token,
    stopsAt p stk = true ->
    exists body pend : list Token,
      pendingAt p pend /\ body ++ pend = postfix /\
      forall rest : list Token,
        shuntingYardLoop (tokens ++ rest) out stk =
        shuntingYardLoop rest (out ++ body) (pend ++ stk).

(** The evaluator runs through [postfix] and leaves the value [v] on
    the stack, or throws when there is none. *)
Definition evalStatement (postfix : list Token) (v : option number) : Prop :=
  forall (rest : list Token) (stack : list number),
    evalLoop (postfix ++ rest) stack =
    match v with
    | Some x => evalLoop rest (x :: stack)
    | None => Err "Division by zero"%string
    end.

(** ** Decimal notation *)

(** Digits, optionally followed by a dot and more digits. *)
Definition isDecimal (cs : list ascii) : bool :=
  match takeDigits cs, dropDigits cs with
  | _ :: _, [] => true
  | _ :: _, c :: fp =>
      (Ascii.eqb c "." && match fp with [] => false | _ :: _ => true end
       && forallb isDigit fp)%bool
  | [], _ => false
  end.

(** The same after an optional minus sign. *)
Definition decimalNotation (s : string) : bool :=
  match list_ascii_of_string s with
  | c :: r => if Ascii.eqb c "-" then isDecimal r else isDecimal (c :: r)
  | [] => false
  end.

(** ** The two sentences of the specification that the code does not meet *)

(** C4 read literally: on a sequence that [handleUnaryMinus] produced, an
    operator that comes in right after a [NEG], before any operand,
    leaves that [NEG] on the operator stack. *)
Definition NEGStaysUntilOperand : Prop :=
  forall (raw pre post : list Token) (op : Token) (out stk : list Token),
    handleUnaryMinus raw = pre ++ NEG :: op :: post ->
    isOperator op = true ->
    shuntingYardLoop (pre ++ [NEG; op]) [] [] = Ok (out, stk) ->
    In NEG stk.

(** C10 read literally: the formatted result of a successful evaluation
    tokenizes to one number, which formats to the same string. *)
Definition formattingReadsBack : Prop :=
  forall (expr : string) (x : number),
    evaluate expr = Ok x ->
    exists y, tokenize (formatResult x) = Ok [Num y] /\
              formatResult y = formatResult x.

(** * Properties *)

(** ** General facts about the loops *)

Lemma bind_Err_inv {A B : Type} (r : result A) (k : A -> result B) (m : string) :
  bind r k = Err m -> r = Err m \/ exists a, r = Ok a /\ k a = Err m.
Proof.
  destruct r as [a|m']; simpl; intros H; [right; eauto | left; congruence].
Qed.

Lemma evalLoop_app (pre post : list Token) (stack : list number) :
  evalLoop (pre ++ post) stack = (s <- evalLoop pre stack ;; evalLoop post s).
Proof.
  revert stack; induction pre as [|t pre IH]; intros stack; simpl; [reflexivity|].
  destruct (evalStep t stack) as [s|m]; simpl; [apply IH | reflexivity].
Qed.

(** A failing run of the evaluator fails at one token, after a prefix
    that ran through. *)
Lemma evalLoop_Err_inv (rpn : list Token) (stack : list number) (m : string) :
  evalLoop rpn stack = Err m ->
  exists pre tok post s,
    rpn = pre ++ tok :: post /\ evalLoop pre stack = Ok s /\ evalStep tok s = Err m.
Proof.
  revert stack; induction rpn as [|t rpn IH]; intros stack; simpl; [discriminate|].
  destruct (evalStep t stack) as [s|m'] eqn:E; simpl; intros H.
  - destruct (IH _ H) as (pre & tok & post & s' & -> & Hpre & Hstep).
    exists (t :: pre), tok, post, s'; simpl; rewrite E; simpl; auto.
  - injection H as ->. exists [], t, rpn, stack; auto.
Qed.

Lemma shuntingYardLoop_app (pre post : list Token) (out stk : list Token) :
  shuntingYardLoop (pre ++ post) out stk =
  (st <- shuntingYardLoop pre out stk ;; shuntingYardLoop post (fst st) (snd st)).
Proof.
  revert out stk; induction pre as [|t pre IH]; intros out stk; simpl; [reflexivity|].
  destruct (shuntingYardStep t out stk) as [st|m]; simpl; [apply IH | reflexivity].
Qed.

Lemma shuntingYardLoop_Err_inv (tokens : list Token) (out stk : list Token) (m : string) :
  shuntingYardLoop tokens out stk = Err m ->
  exists pre tok post out' stk',
    tokens = pre ++ tok :: post /\
    shuntingYardLoop pre out stk = Ok (out', stk') /\
    shuntingYardStep tok out' stk' = Err m.
Proof.
  revert out stk; induction tokens as [|t tokens IH]; intros out stk; simpl;
    [discriminate|].
  destruct (shuntingYardStep t out stk) as [[o s]|m'] eqn:E; simpl; intros H.
  - destruct (IH _ _ H) as (pre & tok & post & o' & s' & -> & Hpre & Hstep).
    exists (t :: pre), tok, post, o', s'; simpl; rewrite E; simpl; auto.
  - injection H as ->. exists [], t, tokens, out, stk; auto.
Qed.

(** ** The evaluator: operand order and division by zero *)

Lemma applyOperator_division_by_zero (op : Token) (operands : list number) :
  applyOperator op operands = Err "Division by zero"%string <->
  op = Slash /\ strictEq (operand operands 0) zero = true.
Proof.
  split.
  - destruct op; simpl; try discriminate.
    destruct (strictEq (operand operands 0) zero); [auto | discriminate].
  - intros [-> H]; simpl; rewrite H; reflexivity.
Qed.

Lemma evalStep_division_by_zero (tok : Token) (stack : list number) :
  evalStep tok stack = Err "Division by zero"%string <->
  tok = Slash /\
  exists right' left' below,
    stack = right' :: left' :: below /\ strictEq right' zero = true.
Proof.
  split.
  - destruct tok; simpl; try discriminate;
      destruct stack as [|r [|l below]]; simpl; try discriminate.
    unfold operand; simpl.
    destruct (strictEq r zero) eqn:E; simpl; [|discriminate].
    intros _; split; [reflexivity|]. exists r, l, below; auto.
  - intros (-> & r & l & below & -> & H); simpl.
    unfold operand; simpl; rewrite H; reflexivity.
Qed.

(** C3.  In [evalRPN] a binary operator takes the value pushed last as its
    right-hand operand and the value pushed before it as its left-hand
    operand, and pushes [left OP right] in their place; so two numbers
    followed by [-] leave [left - right], and the postfix form of
    ["10-2-3"], which is [10 2 - 3 -], evaluates to [5] and not to
    [(3 - 2) - 10]. *)
Theorem evalRPN_operand_order :
  (forall (right' left' : number) (below : list number),
      evalStep Plus (right' :: left' :: below) = Ok (add left' right' :: below) /\
      evalStep Minus (right' :: left' :: below) = Ok (sub left' right' :: below) /\
      evalStep Times (right' :: left' :: below) = Ok (mul left' right' :: below) /\
      evalStep Slash (right' :: left' :: below) =
        (if strictEq right' zero then Err "Division by zero"%string
         else Ok (div left' right' :: below))) /\
  (forall (left' right' : number) (rest : list Token) (stack : list number),
      evalLoop (Num left' :: Num right' :: Plus :: rest) stack =
        evalLoop rest (add left' right' :: stack) /\
      evalLoop (Num left' :: Num right' :: Minus :: rest) stack =
        evalLoop rest (sub left' right' :: stack) /\
      evalLoop (Num left' :: Num right' :: Times :: rest) stack =
        evalLoop rest (mul left' right' :: stack) /\
      (strictEq right' zero = false ->
       evalLoop (Num left' :: Num right' :: Slash :: rest) stack =
         evalLoop rest (div left' right' :: stack))) /\
  (tokens <- tokenize "10-2-3" ;; toRPN tokens) =
    Ok [Num (ofZ 10); Num (ofZ 2); Minus; Num (ofZ 3); Minus] /\
  evalRPN [Num (ofZ 10); Num (ofZ 2); Minus; Num (ofZ 3); Minus] = Ok (ofZ 5) /\
  sub (sub (ofZ 3) (ofZ 2)) (ofZ 10) = ofZ (-9) /\
  ofZ 5 <> ofZ (-9).
Proof.
  split; [|split; [|split; [|split; [|split]]]].
  - intros r l below; simpl; unfold operand; simpl.
    destruct (strictEq r zero); auto.
  - intros l r rest stack; simpl; unfold operand; simpl.
    split; [|split; [|split]]; try reflexivity.
    intros H; rewrite H; reflexivity.
  - vm_compute; reflexivity.
  - vm_compute; reflexivity.
  - vm_compute; reflexivity.
  - vm_compute; discriminate.
Qed.

(** C5.  Evaluation fails with "Division by zero" exactly when a [/] is
    applied while the value on top of the stack, its right-hand operand,
    is zero ([=== 0], so a zero of either sign); [applyOperator] then
    throws before dividing.  In particular [calculate("10/0")] is
    ["ERROR: Division by zero"]. *)
Theorem division_by_zero_exactly :
  (forall (op : Token) (operands : list number),
      applyOperator op operands = Err "Division by zero"%string <->
      op = Slash /\ strictEq (operand operands 0) zero = true) /\
  (forall rpn : list Token,
      evalRPN rpn = Err "Division by zero"%string <->
      exists pre post right' left' below,
        rpn = pre ++ Slash :: post /\
        evalLoop pre [] = Ok (right' :: left' :: below) /\
        strictEq right' zero = true) /\
  calculate "10/0" = "ERROR: Division by zero"%string.
Proof.
  split; [exact applyOperator_division_by_zero|split; [|reflexivity]].
  intros rpn; unfold evalRPN; split.
  - intros H. apply bind_Err_inv in H as [H | (s & _ & H)].
    + apply evalLoop_Err_inv in H as (pre & tok & post & s & -> & Hpre & Hstep).
      apply evalStep_division_by_zero in Hstep
        as (-> & r & l & below & -> & Hz).
      exists pre, post, r, l, below; auto.
    + destruct s as [|x [|y s]]; discriminate.
  - intros (pre & post & r & l & below & -> & Hpre & Hz).
    rewrite evalLoop_app, Hpre; simpl.
    unfold operand; simpl; rewrite Hz; reflexivity.
Qed.

(** ** The converter: mismatched parentheses *)

Lemma isLParen_true (t : Token) : isLParen t = true <-> t = LParen.
Proof. destruct t; simpl; split; congruence. Qed.

Lemma isRParen_true (t : Token) : isRParen t = true <-> t = RParen.
Proof. destruct t; simpl; split; congruence. Qed.

Lemma popToLeftParen_found (out stk : list Token) :
  snd (popToLeftParen out stk) = true <-> In LParen stk.
Proof.
  revert out; induction stk as [|op stk IH]; intros out; simpl.
  - split; [discriminate | tauto].
  - destruct (isLParen op) eqn:E; simpl.
    + apply isLParen_true in E; subst; tauto.
    + rewrite IH. split; [tauto|]. intros [->|H]; [discriminate | exact H].
Qed.

Lemma shuntingYardStep_Err (tok : Token) (out stk : list Token) (m : string) :
  shuntingYardStep tok out stk = Err m <->
  tok = RParen /\ ~ In LParen stk /\ m = "Mismatched parentheses"%string.
Proof.
  unfold shuntingYardStep.
  destruct tok; simpl;
    try (split; [discriminate | intros (H & _); discriminate]);
    try (destruct (popOperators _ out stk);
         split; [discriminate | intros (H & _); discriminate]).
  pose proof (popToLeftParen_found out stk) as F.
  destruct (popToLeftParen out stk) as [[o s] [|]]; simpl in F.
  - split; [discriminate|]. intros (_ & H & _). destruct H; apply F; reflexivity.
  - split.
    + intros H; injection H as <-. repeat split. intros H; apply F in H; discriminate.
    + intros (_ & _ & ->); reflexivity.
Qed.

Lemma popRemaining_Err (out stk : list Token) (m : string) :
  popRemaining out stk = Err m <->
  (In LParen stk \/ In RParen stk) /\ m = "Mismatched parentheses"%string.
Proof.
  revert out; induction stk as [|op stk IH]; intros out; simpl.
  - split; [discriminate | tauto].
  - destruct (isLParen op) eqn:EL; simpl.
    { apply isLParen_true in EL; subst. split.
      - intros H; injection H as <-; auto.
      - intros (_ & ->); reflexivity. }
    destruct (isRParen op) eqn:ER; simpl.
    { apply isRParen_true in ER; subst. split.
      - intros H; injection H as <-; auto.
      - intros (_ & ->); reflexivity. }
    rewrite IH. split; intros (H & ->); (split; [|reflexivity]).
    + tauto.
    + destruct H as [[->|H]|[->|H]]; try discriminate; tauto.
Qed.

(** C7.  [shuntingYard] throws nothing but "Mismatched parentheses", and
    it throws exactly when a [)] is processed while no [(] is on the
    operator stack, or when, all tokens consumed, a [(] or [)] is still on
    the operator stack.  In particular [calculate("(1+2")] is
    ["ERROR: Mismatched parentheses"]. *)
Theorem shuntingYard_mismatched_exactly :
  (forall (tokens : list Token) (m : string),
      shuntingYard tokens = Err m <->
      m = "Mismatched parentheses"%string /\
      ((exists pre post out stk,
           tokens = pre ++ RParen :: post /\
           shuntingYardLoop pre [] [] = Ok (out, stk) /\
           ~ In LParen stk) \/
       (exists out stk,
           shuntingYardLoop tokens [] [] = Ok (out, stk) /\
           (In LParen stk \/ In RParen stk)))) /\
  calculate "(1+2" = "ERROR: Mismatched parentheses"%string.
Proof.
  split; [|reflexivity].
  intros tokens m; unfold shuntingYard; split.
  - intros H. apply bind_Err_inv in H as [H | ([out stk] & Hloop & H)].
    + apply shuntingYardLoop_Err_inv in H
        as (pre & tok & post & out & stk & -> & Hpre & Hstep).
      apply shuntingYardStep_Err in Hstep as (-> & Hno & ->).
      split; [reflexivity|]. left; exists pre, post, out, stk; auto.
    + simpl in H. apply popRemaining_Err in H as (H & ->).
      split; [reflexivity|]. right; exists out, stk; auto.
  - intros (-> & [(pre & post & out & stk & -> & Hpre & Hno) |
                  (out & stk & Hloop & H)]).
    + rewrite shuntingYardLoop_app, Hpre; simpl.
      assert (E : shuntingYardStep RParen out stk =
                  Err "Mismatched parentheses"%string)
        by (apply shuntingYardStep_Err; auto).
      rewrite E; reflexivity.
    + rewrite Hloop; simpl. apply popRemaining_Err; auto.
Qed.

(** ** The unary minus pass *)

Lemma handleUnaryMinusFrom_nth (prevToken : option Token) (tokens : list Token) (i : nat) :
  nth_error (handleUnaryMinusFrom prevToken tokens) i =
  match nth_error tokens i with
  | Some Minus =>
      Some (if unaryContext (match i with
                             | O => prevToken
                             | S j => nth_error tokens j
                             end)
            then NEG else Minus)
  | other => other
  end.
Proof.
  revert prevToken i; induction tokens as [|t tokens IH]; intros prevToken i.
  - destruct i; reflexivity.
  - destruct i as [|i]; simpl.
    + destruct t; reflexivity.
    + rewrite IH. destruct i; reflexivity.
Qed.

Lemma handleUnaryMinusFrom_length (prevToken : option Token) (tokens : list Token) :
  List.length (handleUnaryMinusFrom prevToken tokens) = List.length tokens.
Proof.
  revert prevToken; induction tokens as [|t tokens IH]; intros p; simpl;
    [reflexivity | rewrite IH; reflexivity].
Qed.

(** C6.  [handleUnaryMinus] is a function from token sequences to token
    sequences (it has no failing case), it keeps the length, and at every
    index it leaves the token as it is, except that a [-] becomes [NEG]
    exactly when it stands first or right after [(], [+], [-], [*] or
    [/]; hence [calculate("-3+5")] is ["2"] and [calculate("2*-4")] is
    ["-8"]. *)
Theorem handleUnaryMinus_rule :
  (forall tokens : list Token,
      List.length (handleUnaryMinus tokens) = List.length tokens) /\
  (forall (tokens : list Token) (i : nat),
      nth_error (handleUnaryMinus tokens) i =
      match nth_error tokens i with
      | Some Minus => Some (if unaryPosition tokens i then NEG else Minus)
      | other => other
      end) /\
  calculate "-3+5" = "2"%string /\
  calculate "2*-4" = "-8"%string.
Proof.
  split; [|split; [|split; reflexivity]].
  - intros tokens; apply handleUnaryMinusFrom_length.
  - intros tokens i; unfold handleUnaryMinus.
    rewrite handleUnaryMinusFrom_nth.
    destruct (nth_error tokens i) as [t|] eqn:E; [|reflexivity].
    destruct t; try reflexivity.
    destruct i as [|j]; simpl; [reflexivity|].
    destruct (nth_error tokens j) as [p|] eqn:Ej.
    + destruct p; reflexivity.
    + exfalso. apply nth_error_None in Ej.
      assert (L : (S j < List.length tokens)%nat)
        by (apply nth_error_Some; congruence).
      lia.
Qed.

(** ** The tokenizer *)

(** The three branches of the loop body. *)
Lemma tokenizeLoop_number (cs : list ascii) (tokens : list Token) :
  startsNumber cs = true ->
  tokenizeLoop cs tokens =
  tokenizeLoop (snd (scanNumber false cs))
    (tokens ++ [Num (parseFloat (fst (scanNumber false cs)))]).
Proof.
  intros H. destruct cs as [|c cs]; [discriminate|].
  simp tokenizeLoop.
  destruct (sumbool_of_bool (startsNumber (c :: cs))) as [E|E];
    [reflexivity | congruence].
Qed.

Lemma tokenizeLoop_symbol (c : ascii) (cs : list ascii) (tokens : list Token) (t : Token) :
  startsNumber (c :: cs) = false ->
  symbolToken c = Some t ->
  tokenizeLoop (c :: cs) tokens = tokenizeLoop cs (tokens ++ [t]).
Proof.
  intros H S. simp tokenizeLoop.
  destruct (sumbool_of_bool (startsNumber (c :: cs))) as [E|E]; [congruence|].
  simpl. rewrite S. reflexivity.
Qed.

Lemma tokenizeLoop_invalid (c : ascii) (cs : list ascii) (tokens : list Token) :
  startsNumber (c :: cs) = false ->
  symbolToken c = None ->
  tokenizeLoop (c :: cs) tokens = Err "Invalid character"%string.
Proof.
  intros H S. simp tokenizeLoop.
  destruct (sumbool_of_bool (startsNumber (c :: cs))) as [E|E]; [congruence|].
  simpl. rewrite S. reflexivity.
Qed.

Lemma symbolToken_allowed (c : ascii) (t : Token) :
  symbolToken c = Some t -> allowedChar c = true.
Proof.
  unfold symbolToken, allowedChar.
  destruct (isDigit c), (Ascii.eqb c "."), (Ascii.eqb c "+"), (Ascii.eqb c "-"),
    (Ascii.eqb c "*"), (Ascii.eqb c "/"), (Ascii.eqb c "("), (Ascii.eqb c ")");
    simpl; intros H; try reflexivity; discriminate.
Qed.

(** The run found by the inner loop and the text after it make up the
    text the loop started in, and the run holds digits and dots only. *)
Lemma scanNumber_split (hasDot : bool) (cs : list ascii) :
  cs = fst (scanNumber hasDot cs) ++ snd (scanNumber hasDot cs).
Proof.
  revert hasDot; induction cs as [|c cs IH]; intros hasDot; simpl; [reflexivity|].
  destruct (isDigit c || (Ascii.eqb c "." && negb hasDot))%bool; [|reflexivity].
  specialize (IH (if Ascii.eqb c "." then true else hasDot)).
  destruct (scanNumber _ cs) as [run rest]; simpl in *; congruence.
Qed.

Lemma scanNumber_run_allowed (hasDot : bool) (cs : list ascii) (c : ascii) :
  In c (fst (scanNumber hasDot cs)) -> allowedChar c = true.
Proof.
  revert hasDot; induction cs as [|d cs IH]; intros hasDot; simpl; [tauto|].
  destruct (isDigit d || (Ascii.eqb d "." && negb hasDot))%bool eqn:E;
    [|simpl; tauto].
  specialize (IH (if Ascii.eqb d "." then true else hasDot)).
  destruct (scanNumber _ cs) as [run rest]; simpl in *.
  intros [<-|H]; [|auto].
  unfold allowedChar.
  destruct (isDigit d); [reflexivity|].
  destruct (Ascii.eqb d "."); [reflexivity | discriminate].
Qed.

(** Induction on the length of the remaining text, the measure of the
    loop. *)
Lemma text_length_ind (P : list ascii -> Prop) :
  (forall cs, (forall cs', (List.length cs' < List.length cs)%nat -> P cs') -> P cs) ->
  forall cs, P cs.
Proof.
  intros step cs.
  remember (List.length cs) as n eqn:E. revert cs E.
  induction n as [n IH] using lt_wf_ind; intros cs ->.
  apply step; intros cs' L. exact (IH _ L cs' eq_refl).
Qed.

(** The loop throws nothing but "Invalid character". *)
Lemma tokenizeLoop_Err (cs : list ascii) (tokens : list Token) (m : string) :
  tokenizeLoop cs tokens = Err m -> m = "Invalid character"%string.
Proof.
  revert tokens; induction cs as [cs IH] using text_length_ind; intros tokens.
  destruct cs as [|c cs]; [simp tokenizeLoop; discriminate|].
  destruct (startsNumber (c :: cs)) eqn:N.
  - rewrite (tokenizeLoop_number _ _ N). apply IH, scanNumber_progress, N.
  - destruct (symbolToken c) as [t|] eqn:S.
    + rewrite (tokenizeLoop_symbol _ _ _ _ N S). apply IH; simpl; lia.
    + rewrite (tokenizeLoop_invalid _ _ _ N S). congruence.
Qed.

(** A character outside the allowed set stops the loop. *)
Lemma tokenizeLoop_bad_char (cs : list ascii) (tokens : list Token) (c : ascii) :
  In c cs -> allowedChar c = false ->
  tokenizeLoop cs tokens = Err "Invalid character"%string.
Proof.
  revert tokens; induction cs as [cs IH] using text_length_ind;
    intros tokens Hin Hbad.
  destruct cs as [|d cs]; [destruct Hin|].
  destruct (startsNumber (d :: cs)) eqn:N.
  - rewrite (tokenizeLoop_number _ _ N).
    apply IH; [apply scanNumber_progress, N | | exact Hbad].
    rewrite (scanNumber_split false (d :: cs)) in Hin.
    apply in_app_or in Hin as [H|H]; [|exact H].
    apply scanNumber_run_allowed in H; congruence.
  - destruct (symbolToken d) as [t|] eqn:S.
    + rewrite (tokenizeLoop_symbol _ _ _ _ N S).
      apply IH; [simpl; lia | | exact Hbad].
      destruct Hin as [<-|H]; [|exact H].
      apply symbolToken_allowed in S; congruence.
    + apply (tokenizeLoop_invalid _ _ _ N S).
Qed.

(** C8.  [tokenize] throws "Malformed expression" when nothing is left of
    the input once the whitespace is removed (and only then), and "Invalid
    character" when a character of what is left is not a digit, [.], [+],
    [-], [*], [/], [(] or [)]; it throws nothing else.  In particular
    [calculate("")] is ["ERROR: Malformed expression"] and
    [calculate("2+@")] is ["ERROR: Invalid character"]. *)
Theorem tokenize_errors :
  (forall expr : string,
      removeWhitespace (list_ascii_of_string expr) = [] <->
      tokenize expr = Err "Malformed expression"%string) /\
  (forall (expr : string) (c : ascii),
      In c (removeWhitespace (list_ascii_of_string expr)) ->
      allowedChar c = false ->
      tokenize expr = Err "Invalid character"%string) /\
  (forall (expr : string) (m : string),
      tokenize expr = Err m ->
      m = "Malformed expression"%string \/ m = "Invalid character"%string) /\
  calculate "" = "ERROR: Malformed expression"%string /\
  calculate "2+@" = "ERROR: Invalid character"%string.
Proof.
  split; [|split; [|split; [|split; reflexivity]]].
  - intros expr; unfold tokenize.
    destruct (removeWhitespace (list_ascii_of_string expr)) as [|c cs];
      [split; reflexivity|].
    split; [discriminate|].
    intros H; apply tokenizeLoop_Err in H; discriminate.
  - intros expr c Hin Hbad; unfold tokenize.
    destruct (removeWhitespace (list_ascii_of_string expr)) as [|d cs] eqn:E;
      [destruct Hin|].
    apply (tokenizeLoop_bad_char _ _ c Hin Hbad).
  - intros expr m; unfold tokenize.
    destruct (removeWhitespace (list_ascii_of_string expr)) as [|d cs].
    + intros H; injection H as <-; auto.
    + intros H; apply tokenizeLoop_Err in H; auto.
Qed.

(** ["2 + @"] is an instance: the [@] is left after the blanks are
    removed and is not an allowed character. *)
Lemma tokenize_errors_witness :
  In "@"%char (removeWhitespace (list_ascii_of_string "2 + @")) /\
  allowedChar "@" = false /\
  tokenize "2 + @" = Err "Invalid character"%string.
Proof.
  split; [right; right; left; reflexivity|split; [reflexivity|]].
  apply (proj1 (proj2 tokenize_errors) "2 + @"%string "@"%char);
    [right; right; left; reflexivity | reflexivity].
Defined.

(** *** Number runs *)

Lemma isDigit_not_dot (c : ascii) : isDigit c = true -> Ascii.eqb c "." = false.
Proof.
  intros H. destruct (Ascii.eqb_spec c "."%char) as [->|]; [discriminate | reflexivity].
Qed.

(** Once a dot has been seen the run goes on through digits only. *)
Lemma scanNumber_digits_after_dot (ds rest : list ascii) :
  forallb isDigit ds = true -> headIsDigit rest = false ->
  scanNumber true (ds ++ rest) = (ds, rest).
Proof.
  intros D R; induction ds as [|d ds IH]; cbn [app scanNumber].
  - destruct rest as [|c rest]; [reflexivity|].
    cbn [headIsDigit] in R; cbn [scanNumber].
    rewrite R, andb_false_r; reflexivity.
  - cbn [forallb] in D; apply andb_true_iff in D as [Dd D].
    rewrite Dd, (isDigit_not_dot _ Dd), (IH D). reflexivity.
Qed.

(** Before a dot the run goes through digits and stops at anything that
    is neither a digit nor a dot. *)
Lemma scanNumber_digits (ds rest : list ascii) :
  forallb isDigit ds = true -> headIsDigit rest = false -> headIsDot rest = false ->
  scanNumber false (ds ++ rest) = (ds, rest).
Proof.
  intros D R1 R2; induction ds as [|d ds IH]; cbn [app scanNumber].
  - destruct rest as [|c rest]; [reflexivity|].
    cbn [headIsDigit headIsDot] in R1, R2; cbn [scanNumber].
    rewrite R1, R2; reflexivity.
  - cbn [forallb] in D; apply andb_true_iff in D as [Dd D].
    rewrite Dd, (isDigit_not_dot _ Dd), (IH D). reflexivity.
Qed.

(** Digits, one dot, digits: the run ends where the digits after the dot
    end, whatever follows, a second dot included. *)
Lemma scanNumber_digits_dot_digits (ds1 ds2 rest : list ascii) :
  forallb isDigit ds1 = true -> forallb isDigit ds2 = true ->
  headIsDigit rest = false ->
  scanNumber false (ds1 ++ "."%char :: ds2 ++ rest) = (ds1 ++ "."%char :: ds2, rest).
Proof.
  intros D1 D2 R; induction ds1 as [|d ds IH]; cbn [app scanNumber].
  - change (isDigit "."%char) with false; change (Ascii.eqb "." ".") with true.
    cbn [orb andb negb].
    rewrite (scanNumber_digits_after_dot _ _ D2 R). reflexivity.
  - cbn [forallb] in D1; apply andb_true_iff in D1 as [Dd D1].
    rewrite Dd, (isDigit_not_dot _ Dd), (IH D1). reflexivity.
Qed.

Lemma scanNumber_dots (hasDot : bool) (cs : list ascii) :
  (count_occ ascii_dec (fst (scanNumber hasDot cs)) "."%char
   <= if hasDot then 0 else 1)%nat.
Proof.
  revert hasDot; induction cs as [|c cs IH]; intros hasDot; simpl.
  - destruct hasDot; lia.
  - destruct (isDigit c) eqn:Dc; simpl.
    + rewrite (isDigit_not_dot _ Dc). specialize (IH hasDot).
      destruct (scanNumber hasDot cs) as [run rest]; simpl in *.
      destruct (ascii_dec c "."%char) as [->|]; [discriminate | exact IH].
    + destruct (Ascii.eqb_spec c "."%char) as [->|N]; simpl.
      * destruct hasDot; simpl; [lia|].
        specialize (IH true).
        destruct (scanNumber true cs) as [run rest]; simpl in *. lia.
      * destruct hasDot; simpl; lia.
Qed.

(** C9.  A number token is one run of digits with at most one dot: the
    inner loop splits the text into that run and the rest; when the run
    already holds a dot, a second dot ends it, and the scan goes on from
    that second dot without any error raised by the run.  So ["1.2.3"]
    gives the number [1.2] followed by what the text [".3"] gives. *)
Theorem number_run_ends_at_second_dot :
  (forall (ds1 ds2 rest : list ascii) (tokens : list Token),
      forallb isDigit ds1 = true -> forallb isDigit ds2 = true ->
      startsNumber (ds1 ++ "."%char :: ds2) = true ->
      tokenizeLoop (ds1 ++ "."%char :: ds2 ++ "."%char :: rest) tokens =
      tokenizeLoop ("."%char :: rest)
        (tokens ++ [Num (parseFloat (ds1 ++ "."%char :: ds2))])) /\
  (forall cs : list ascii,
      cs = fst (scanNumber false cs) ++ snd (scanNumber false cs) /\
      (count_occ ascii_dec (fst (scanNumber false cs)) "."%char <= 1)%nat /\
      Forall (fun c => isDigit c = true \/ c = "."%char) (fst (scanNumber false cs))) /\
  tokenize "1.2.3" =
    Ok [Num (parseFloat (list_ascii_of_string "1.2"));
        Num (parseFloat (list_ascii_of_string ".3"))] /\
  parseFloat (list_ascii_of_string "1.2") = div (ofZ 12) (ofZ 10).
Proof.
  split; [|split; [|split; reflexivity]].
  - intros ds1 ds2 rest tokens D1 D2 N.
    assert (N' : startsNumber (ds1 ++ "."%char :: ds2 ++ "."%char :: rest) = true).
    { destruct ds1 as [|d ds1]; simpl in *.
      - destruct ds2 as [|d ds2]; simpl in *; [discriminate | exact N].
      - apply andb_true_iff in D1 as [Dd _]. rewrite Dd; reflexivity. }
    rewrite (tokenizeLoop_number _ _ N').
    rewrite (scanNumber_digits_dot_digits ds1 ds2 ("."%char :: rest) D1 D2 eq_refl).
    reflexivity.
  - intros cs; split; [apply scanNumber_split|split; [apply (scanNumber_dots false)|]].
    apply Forall_forall; intros c H.
    assert (A : forall b l, In c (fst (scanNumber b l)) ->
                            isDigit c = true \/ c = "."%char).
    { clear; intros b l; revert b; induction l as [|d l IH]; intros b; simpl; [tauto|].
      destruct (isDigit d || (Ascii.eqb d "." && negb b))%bool eqn:E; [|simpl; tauto].
      specialize (IH (if Ascii.eqb d "." then true else b)).
      destruct (scanNumber _ l) as [run rest]; simpl in *.
      intros [<-|H]; [|auto].
      destruct (isDigit d); [auto|]. right.
      destruct (Ascii.eqb_spec d "."%char); [assumption | discriminate]. }
    exact (A _ _ H).
Qed.

(** ["1.2.3"] is an instance, with the digit runs [1], [2] and the rest
    [3]: after the number [1.2] the scan is at the second dot. *)
Lemma number_run_ends_at_second_dot_witness :
  tokenizeLoop (list_ascii_of_string "1.2.3") [] =
  tokenizeLoop (list_ascii_of_string ".3")
    [Num (parseFloat (list_ascii_of_string "1.2"))].
Proof.
  exact (proj1 number_run_ends_at_second_dot
           ["1"%char] ["2"%char] ["3"%char] [] eq_refl eq_refl eq_refl).
Defined.

(** ** The boundary: what [calculate] can answer *)

Lemma tokenize_Err (expr : string) (m : string) :
  tokenize expr = Err m ->
  m = "Malformed expression"%string \/ m = "Invalid character"%string.
Proof.
  unfold tokenize.
  destruct (removeWhitespace (list_ascii_of_string expr)) as [|d cs].
  - intros H; injection H as <-; auto.
  - intros H; apply tokenizeLoop_Err in H; auto.
Qed.

Lemma toRPN_Err (tokens : list Token) (m : string) :
  toRPN tokens = Err m -> m = "Mismatched parentheses"%string.
Proof.
  unfold toRPN, shuntingYard; intros H.
  apply bind_Err_inv in H as [H | ([out stk] & _ & H)].
  - apply shuntingYardLoop_Err_inv in H as (pre & tok & post & o & s & _ & _ & H).
    apply shuntingYardStep_Err in H; tauto.
  - apply popRemaining_Err in H; tauto.
Qed.

Lemma evalStep_Err (tok : Token) (stack : list number) (m : string) :
  evalStep tok stack = Err m ->
  m = "Malformed expression"%string \/ m = "Division by zero"%string.
Proof.
  destruct tok; simpl; try discriminate;
    destruct stack as [|r [|l below]]; simpl; try discriminate;
    try (intros H; injection H as <-; auto; fail).
  unfold operand; simpl.
  destruct (strictEq r zero); simpl; [|discriminate].
  intros H; injection H as <-; auto.
Qed.

Lemma evalRPN_Err (rpn : list Token) (m : string) :
  evalRPN rpn = Err m ->
  m = "Malformed expression"%string \/ m = "Division by zero"%string.
Proof.
  unfold evalRPN; intros H.
  apply bind_Err_inv in H as [H | (s & _ & H)].
  - apply evalLoop_Err_inv in H as (pre & tok & post & s & _ & _ & H).
    apply evalStep_Err in H; exact H.
  - destruct s as [|x [|y s]]; try discriminate; injection H as <-; auto.
Qed.

(** C2.  [calculate] answers every input string with a string: the
    formatted value when the four stages succeed, and otherwise
    ["ERROR: "] followed by the message thrown, whichever stage threw it
    ([tokenize], [toRPN], which holds the unary minus pass and the
    conversion, or [evalRPN]); the message is always one of "Invalid
    character", "Malformed expression", "Mismatched parentheses" and
    "Division by zero". *)
Theorem calculate_error_boundary :
  (forall expr : string,
      (exists x, evaluate expr = Ok x /\ calculate expr = formatResult x) \/
      (exists m, evaluate expr = Err m /\
                 calculate expr = ("ERROR: " ++ m)%string /\ knownMessage m)) /\
  (forall (expr : string) (m : string),
      tokenize expr = Err m ->
      calculate expr = ("ERROR: " ++ m)%string /\
      (m = "Malformed expression"%string \/ m = "Invalid character"%string)) /\
  (forall (expr : string) (tokens : list Token) (m : string),
      tokenize expr = Ok tokens -> toRPN tokens = Err m ->
      calculate expr = ("ERROR: " ++ m)%string /\
      m = "Mismatched parentheses"%string) /\
  (forall (expr : string) (tokens rpn : list Token) (m : string),
      tokenize expr = Ok tokens -> toRPN tokens = Ok rpn -> evalRPN rpn = Err m ->
      calculate expr = ("ERROR: " ++ m)%string /\
      (m = "Malformed expression"%string \/ m = "Division by zero"%string)) /\
  (forall (expr : string) (tokens rpn : list Token) (x : number),
      tokenize expr = Ok tokens -> toRPN tokens = Ok rpn -> evalRPN rpn = Ok x ->
      calculate expr = formatResult x).
Proof.
  assert (S1 : forall expr m, tokenize expr = Err m ->
                 calculate expr = ("ERROR: " ++ m)%string).
  { intros expr m H; unfold calculate, evaluate; rewrite H; reflexivity. }
  assert (S2 : forall expr tokens m,
             tokenize expr = Ok tokens -> toRPN tokens = Err m ->
             calculate expr = ("ERROR: " ++ m)%string).
  { intros expr tokens m H1 H2; unfold calculate, evaluate.
    rewrite H1; simpl; rewrite H2; reflexivity. }
  assert (S3 : forall expr tokens rpn m,
             tokenize expr = Ok tokens -> toRPN tokens = Ok rpn ->
             evalRPN rpn = Err m ->
             calculate expr = ("ERROR: " ++ m)%string).
  { intros expr tokens rpn m H1 H2 H3; unfold calculate, evaluate.
    rewrite H1; simpl; rewrite H2; simpl; rewrite H3; reflexivity. }
  split; [|split; [|split; [|split]]].
  - intros expr; unfold calculate.
    destruct (evaluate expr) as [x|m] eqn:E; [left; eauto|].
    right; exists m; split; [reflexivity|split; [reflexivity|]].
    unfold evaluate in E.
    apply bind_Err_inv in E as [E | (tokens & _ & E)].
    { apply tokenize_Err in E; unfold knownMessage; tauto. }
    apply bind_Err_inv in E as [E | (rpn & _ & E)].
    { apply toRPN_Err in E; unfold knownMessage; tauto. }
    apply evalRPN_Err in E; unfold knownMessage; tauto.
  - intros expr m H; split; [exact (S1 _ _ H) | exact (tokenize_Err _ _ H)].
  - intros expr tokens m H1 H2; split; [exact (S2 _ _ _ H1 H2) | exact (toRPN_Err _ _ H2)].
  - intros expr tokens rpn m H1 H2 H3;
      split; [exact (S3 _ _ _ _ H1 H2 H3) | exact (evalRPN_Err _ _ H3)].
  - intros expr tokens rpn x H1 H2 H3; unfold calculate, evaluate.
    rewrite H1; simpl; rewrite H2; simpl; rewrite H3; reflexivity.
Qed.

(** ["(1+2"] is an instance: it tokenizes, and the conversion throws. *)
Lemma calculate_error_boundary_witness :
  tokenize "(1+2" = Ok [LParen; Num (ofZ 1); Plus; Num (ofZ 2)] /\
  toRPN [LParen; Num (ofZ 1); Plus; Num (ofZ 2)] =
    Err "Mismatched parentheses"%string /\
  calculate "(1+2" = "ERROR: Mismatched parentheses"%string.
Proof.
  split; [reflexivity|split; [reflexivity|]].
  exact (proj1 (proj1 (proj2 (proj2 calculate_error_boundary))
                  "(1+2"%string [LParen; Num (ofZ 1); Plus; Num (ofZ 2)]
                  "Mismatched parentheses"%string eq_refl eq_refl)).
Defined.

(** ** Integer literals *)

Lemma isDigit_digitToChar (d : Digit) : isDigit (digitToChar d) = true.
Proof. destruct d; reflexivity. Qed.

Lemma forallb_isDigit_digits (ds : list Digit) :
  forallb isDigit (map digitToChar ds) = true.
Proof.
  induction ds as [|d ds IH]; simpl; [reflexivity|].
  rewrite IH, andb_true_r. apply isDigit_digitToChar.
Qed.

Lemma takeDigits_digits (ds : list Digit) :
  takeDigits (map digitToChar ds) = map digitToChar ds.
Proof.
  induction ds as [|d ds IH]; cbn [map takeDigits]; [reflexivity|].
  rewrite isDigit_digitToChar, IH. reflexivity.
Qed.

Lemma dropDigits_digits (ds : list Digit) : dropDigits (map digitToChar ds) = [].
Proof.
  induction ds as [|d ds IH]; cbn [map dropDigits]; [reflexivity|].
  rewrite isDigit_digitToChar. exact IH.
Qed.

Lemma digitsToZ_digits (ds : list Digit) :
  digitsToZ (map digitToChar ds) = digitsToInteger ds.
Proof.
  unfold digitsToZ, digitsToInteger. generalize 0.
  induction ds as [|d ds IH]; intros acc; cbn [map fold_left]; [reflexivity|].
  rewrite IH. f_equal. destruct d; reflexivity.
Qed.

Lemma digitsToInteger_nonneg (ds : list Digit) : 0 <= digitsToInteger ds.
Proof.
  unfold digitsToInteger.
  assert (G : forall acc, 0 <= acc ->
              0 <= fold_left (fun acc d => 10 * acc + digitToZ d) ds acc).
  { induction ds as [|d ds IH]; intros acc H; cbn [fold_left]; [exact H|].
    apply IH. destruct d; cbn [digitToZ]; lia. }
  apply G; lia.
Qed.

Lemma ofDecimal_integer (z : Z) : 0 <= z -> ofDecimal z 0 = ofZ z.
Proof.
  intros H. destruct z as [|p|p]; [reflexivity | | lia].
  unfold ofDecimal. f_equal. rewrite Z.pow_0_r. lia.
Qed.

(** [parseFloat] of an integer literal is the number nearest to the
    integer it denotes. *)
Lemma parseFloat_digits (d : Digit) (ds : list Digit) :
  parseFloat (map digitToChar (d :: ds)) = ofZ (digitsToInteger (d :: ds)).
Proof.
  unfold parseFloat.
  rewrite takeDigits_digits, dropDigits_digits, app_nil_r.
  cbn [map List.length Z.of_nat Z.opp].
  change (digitToChar d :: map digitToChar ds) with (map digitToChar (d :: ds)).
  rewrite digitsToZ_digits.
  apply ofDecimal_integer, digitsToInteger_nonneg.
Qed.

(** ** The tokenizer on the text of an expression *)

Lemma startsNumber_digits (d : Digit) (ds : list Digit) (rest : list ascii) :
  startsNumber (map digitToChar (d :: ds) ++ rest) = true.
Proof. cbn [map app startsNumber]. rewrite isDigit_digitToChar. reflexivity. Qed.

Lemma tokenizeLoop_literal (d : Digit) (ds : list Digit) (rest : list ascii) (tokens : list Token) :
  headIsDigit rest = false -> headIsDot rest = false ->
  tokenizeLoop (map digitToChar (d :: ds) ++ rest) tokens =
  tokenizeLoop rest (tokens ++ [Num (ofZ (digitsToInteger (d :: ds)))]).
Proof.
  intros R1 R2.
  rewrite (tokenizeLoop_number _ _ (startsNumber_digits d ds rest)).
  rewrite (scanNumber_digits _ _ (forallb_isDigit_digits (d :: ds)) R1 R2).
  cbn [fst snd]. rewrite parseFloat_digits. reflexivity.
Qed.

Lemma tokenize_render :
  (forall (e : Expr) (rest : list ascii) (tokens : list Token),
      headIsDigit rest = false -> headIsDot rest = false ->
      tokenizeLoop (renderExpr e ++ rest) tokens =
      tokenizeLoop rest (tokens ++ tokensExpr Minus e)) /\
  (forall (t : Term) (rest : list ascii) (tokens : list Token),
      headIsDigit rest = false -> headIsDot rest = false ->
      tokenizeLoop (renderTerm t ++ rest) tokens =
      tokenizeLoop rest (tokens ++ tokensTerm Minus t)) /\
  (forall (f : Factor) (rest : list ascii) (tokens : list Token),
      headIsDigit rest = false -> headIsDot rest = false ->
      tokenizeLoop (renderFactor f ++ rest) tokens =
      tokenizeLoop rest (tokens ++ tokensFactor Minus f)) /\
  (forall (a : Atom) (rest : list ascii) (tokens : list Token),
      headIsDigit rest = false -> headIsDot rest = false ->
      tokenizeLoop (renderAtom a ++ rest) tokens =
      tokenizeLoop rest (tokens ++ tokensAtom Minus a)).
Proof.
  apply syntax_mutind.
  - intros t IH rest tokens R1 R2. exact (IH rest tokens R1 R2).
  - intros e IHe t IHt rest tokens R1 R2; cbn [renderExpr tokensExpr].
    rewrite <- app_assoc; cbn [app].
    rewrite IHe by reflexivity.
    rewrite (tokenizeLoop_symbol _ _ _ Plus) by reflexivity.
    rewrite (IHt _ _ R1 R2). rewrite <- !app_assoc. reflexivity.
  - intros e IHe t IHt rest tokens R1 R2; cbn [renderExpr tokensExpr].
    rewrite <- app_assoc; cbn [app].
    rewrite IHe by reflexivity.
    rewrite (tokenizeLoop_symbol _ _ _ Minus) by reflexivity.
    rewrite (IHt _ _ R1 R2). rewrite <- !app_assoc. reflexivity.
  - intros f IH rest tokens R1 R2. exact (IH rest tokens R1 R2).
  - intros t IHt f IHf rest tokens R1 R2; cbn [renderTerm tokensTerm].
    rewrite <- app_assoc; cbn [app].
    rewrite IHt by reflexivity.
    rewrite (tokenizeLoop_symbol _ _ _ Times) by reflexivity.
    rewrite (IHf _ _ R1 R2). rewrite <- !app_assoc. reflexivity.
  - intros t IHt f IHf rest tokens R1 R2; cbn [renderTerm tokensTerm].
    rewrite <- app_assoc; cbn [app].
    rewrite IHt by reflexivity.
    rewrite (tokenizeLoop_symbol _ _ _ Slash) by reflexivity.
    rewrite (IHf _ _ R1 R2). rewrite <- !app_assoc. reflexivity.
  - intros a IH rest tokens R1 R2. exact (IH rest tokens R1 R2).
  - intros a IH rest tokens R1 R2; cbn [renderFactor tokensFactor app].
    rewrite (tokenizeLoop_symbol _ _ _ Minus) by reflexivity.
    rewrite (IH _ _ R1 R2). rewrite <- !app_assoc. reflexivity.
  - intros d ds rest tokens R1 R2; cbn [renderAtom tokensAtom].
    apply tokenizeLoop_literal; assumption.
  - intros e IH rest tokens R1 R2; cbn [renderAtom tokensAtom app].
    rewrite (tokenizeLoop_symbol _ _ _ LParen) by reflexivity.
    rewrite <- app_assoc; cbn [app].
    rewrite IH by reflexivity.
    rewrite (tokenizeLoop_symbol _ _ _ RParen) by reflexivity.
    rewrite <- !app_assoc. reflexivity.
Qed.

(** ** The unary minus pass on the tokens of an expression *)

Lemma unaryPass_binary (op : Token) (raw1 normal1 raw2 normal2 : list Token) :
  op <> Minus -> unaryContext (Some op) = true ->
  unaryPassStatement raw1 normal1 -> unaryPassStatement raw2 normal2 ->
  unaryPassStatement (raw1 ++ op :: raw2) (normal1 ++ op :: normal2).
Proof.
  intros Hop Hctx H1 H2 prevToken rest Hprev.
  destruct (H1 prevToken (op :: raw2 ++ rest) Hprev) as (l1 & L1 & E1).
  destruct (H2 (Some op) rest Hctx) as (l2 & L2 & E2).
  exists l2; split; [exact L2|].
  rewrite <- !app_assoc; cbn [app]. rewrite E1.
  cbn [handleUnaryMinusFrom]. rewrite E2.
  destruct op; try reflexivity. congruence.
Qed.

Lemma unaryPass_subtraction (raw1 normal1 raw2 normal2 : list Token) :
  unaryPassStatement raw1 normal1 -> unaryPassStatement raw2 normal2 ->
  unaryPassStatement (raw1 ++ Minus :: raw2) (normal1 ++ Minus :: normal2).
Proof.
  intros H1 H2 prevToken rest Hprev.
  destruct (H1 prevToken (Minus :: raw2 ++ rest) Hprev) as (l1 & L1 & E1).
  destruct (H2 (Some Minus) rest eq_refl) as (l2 & L2 & E2).
  exists l2; split; [exact L2|].
  rewrite <- !app_assoc; cbn [app]. rewrite E1.
  cbn [handleUnaryMinusFrom]. rewrite E2, L1. reflexivity.
Qed.

Lemma handleUnaryMinus_tokens :
  (forall e : Expr, unaryPassStatement (tokensExpr Minus e) (tokensExpr NEG e)) /\
  (forall t : Term, unaryPassStatement (tokensTerm Minus t) (tokensTerm NEG t)) /\
  (forall f : Factor, unaryPassStatement (tokensFactor Minus f) (tokensFactor NEG f)) /\
  (forall a : Atom, unaryPassStatement (tokensAtom Minus a) (tokensAtom NEG a)).
Proof.
  apply syntax_mutind; cbn [tokensExpr tokensTerm tokensFactor tokensAtom].
  - intros t IH; exact IH.
  - intros e IHe t IHt. apply unaryPass_binary; [discriminate | reflexivity | |]; assumption.
  - intros e IHe t IHt. apply unaryPass_subtraction; assumption.
  - intros f IH; exact IH.
  - intros t IHt f IHf. apply unaryPass_binary; [discriminate | reflexivity | |]; assumption.
  - intros t IHt f IHf. apply unaryPass_binary; [discriminate | reflexivity | |]; assumption.
  - intros a IH; exact IH.
  - intros a IH prevToken rest Hprev.
    destruct (IH (Some Minus) rest eq_refl) as (l & L & E).
    exists l; split; [exact L|].
    cbn [app handleUnaryMinusFrom]. rewrite Hprev, E. reflexivity.
  - intros d ds prevToken rest Hprev.
    exists (Num (ofZ (digitsToInteger (d :: ds)))); split; reflexivity.
  - intros e IH prevToken rest Hprev.
    destruct (IH (Some LParen) (RParen :: rest) eq_refl) as (l & L & E).
    exists RParen; split; [reflexivity|].
    cbn [app handleUnaryMinusFrom]. rewrite <- !app_assoc; cbn [app].
    rewrite E. reflexivity.
Qed.

(** ** The converter on the tokens of an expression *)

Lemma stopsAt_mono (p q : Z) (stk : list Token) :
  p <= q -> stopsAt p stk = true -> stopsAt q stk = true.
Proof.
  destruct stk as [|top stk]; cbn [stopsAt]; [reflexivity|]. intros L.
  destruct (isLParen top), (isOperator top); cbn [negb andb]; try reflexivity.
  destruct (p <=? precedence top) eqn:E1; [discriminate|]. intros _.
  destruct (q <=? precedence top) eqn:E2; [|reflexivity].
  apply Z.leb_gt in E1. apply Z.leb_le in E2. lia.
Qed.

Lemma pendingAt_mono (p q : Z) (pend : list Token) :
  p <= q -> pendingAt q pend -> pendingAt p pend.
Proof.
  intros L H; eapply Forall_impl; [|exact H].
  intros o [Ho Hp]; split; [exact Ho | lia].
Qed.

Lemma popOperators_pending (token : Token) (pend stk out : list Token) :
  pendingAt (precedence token) pend -> stopsAt (precedence token) stk = true ->
  popOperators token out (pend ++ stk) = (out ++ pend, stk).
Proof.
  intros P S; revert out; induction P as [|o pend [Ho Hp] P IH]; intros out.
  - rewrite app_nil_r; cbn [app].
    destruct stk as [|top stk]; [reflexivity|]. cbn [popOperators].
    cbn [stopsAt] in S. apply negb_true_iff in S. rewrite S. reflexivity.
  - cbn [app popOperators].
    assert (E : (negb (isLParen o) && isOperator o
                 && (precedence token <=? precedence o))%bool = true).
    { apply andb_true_iff; split; [|apply Z.leb_le; exact Hp].
      rewrite Ho. destruct o; try discriminate; reflexivity. }
    rewrite E, IH, <- app_assoc. reflexivity.
Qed.

Lemma popToLeftParen_pending (p : Z) (pend stk out : list Token) :
  pendingAt p pend ->
  popToLeftParen out (pend ++ LParen :: stk) = (out ++ pend, stk, true).
Proof.
  intros P; revert out; induction P as [|o pend [Ho Hp] P IH]; intros out.
  - rewrite app_nil_r; reflexivity.
  - cbn [app popToLeftParen].
    replace (isLParen o) with false by (destruct o; try reflexivity; discriminate).
    rewrite IH, <- app_assoc. reflexivity.
Qed.

Lemma popRemaining_pending (p : Z) (pend out : list Token) :
  pendingAt p pend -> popRemaining out pend = Ok (out ++ pend).
Proof.
  intros P; revert out; induction P as [|o pend [Ho Hp] P IH]; intros out.
  - rewrite app_nil_r; reflexivity.
  - cbn [popRemaining].
    replace (isLParen o || isRParen o)%bool with false
      by (destruct o; try reflexivity; discriminate).
    rewrite IH, <- app_assoc. reflexivity.
Qed.

Lemma shuntingYardStep_operator (op : Token) (out stk : list Token) :
  isOperator op = true ->
  shuntingYardStep op out stk =
  Ok (fst (popOperators op out stk), op :: snd (popOperators op out stk)).
Proof.
  intros H; unfold shuntingYardStep.
  replace (isNumber op) with false by (destruct op; try reflexivity; discriminate).
  rewrite H. destruct (popOperators op out stk); reflexivity.
Qed.

Lemma yard_weaken (p q : Z) (tokens postfix : list Token) :
  p <= q -> yardStatement q tokens postfix -> yardStatement p tokens postfix.
Proof.
  intros L H out stk S.
  destruct (H out stk (stopsAt_mono _ _ _ L S)) as (body & pend & P & E & R).
  exists body, pend; split; [exact (pendingAt_mono _ _ _ L P) | auto].
Qed.

Lemma yard_binary (op : Token) (p : Z) (tokens1 postfix1 tokens2 postfix2 : list Token) :
  isOperator op = true -> precedence op = p ->
  yardStatement p tokens1 postfix1 -> yardStatement (p + 1) tokens2 postfix2 ->
  yardStatement p (tokens1 ++ op :: tokens2) (postfix1 ++ postfix2 ++ [op]).
Proof.
  intros Hop Hp H1 H2 out stk S.
  destruct (H1 out stk S) as (b1 & pd1 & P1 & E1 & R1).
  assert (S2 : stopsAt (p + 1) (op :: stk) = true).
  { cbn [stopsAt]. rewrite Hp. replace (p + 1 <=? p) with false by lia.
    rewrite andb_false_r; reflexivity. }
  destruct (H2 (out ++ postfix1) (op :: stk) S2) as (b2 & pd2 & P2 & E2 & R2).
  exists (postfix1 ++ b2), (pd2 ++ [op]); split; [|split].
  - apply Forall_app; split; [exact (pendingAt_mono p (p + 1) _ ltac:(lia) P2)|].
    constructor; [split; [exact Hop | lia] | constructor].
  - rewrite <- E2, <- !app_assoc. reflexivity.
  - intros rest. rewrite <- app_assoc; cbn [app]. rewrite R1.
    cbn [shuntingYardLoop]. rewrite (shuntingYardStep_operator _ _ _ Hop).
    rewrite <- Hp in P1, S. rewrite (popOperators_pending _ _ _ _ P1 S).
    cbn [bind fst snd]. rewrite <- app_assoc, E1, R2, <- !app_assoc.
    reflexivity.
Qed.

Lemma shuntingYard_tokens :
  (forall e : Expr, yardStatement 1 (tokensExpr NEG e) (postfixExpr e)) /\
  (forall t : Term, yardStatement 2 (tokensTerm NEG t) (postfixTerm t)) /\
  (forall f : Factor, yardStatement 3 (tokensFactor NEG f) (postfixFactor f)) /\
  (forall (a : Atom) (out stk rest : list Token),
      shuntingYardLoop (tokensAtom NEG a ++ rest) out stk =
      shuntingYardLoop rest (out ++ postfixAtom a) stk).
Proof.
  apply syntax_mutind;
    cbn [tokensExpr tokensTerm tokensFactor tokensAtom
         postfixExpr postfixTerm postfixFactor postfixAtom].
  - intros t IH. apply (yard_weaken 1 2); [lia | exact IH].
  - intros e IHe t IHt. apply (yard_binary Plus 1); auto.
  - intros e IHe t IHt. apply (yard_binary Minus 1); auto.
  - intros f IH. apply (yard_weaken 2 3); [lia | exact IH].
  - intros t IHt f IHf. apply (yard_binary Times 2); auto.
  - intros t IHt f IHf. apply (yard_binary Slash 2); auto.
  - intros a IH out stk S.
    exists (postfixAtom a), []; split; [constructor|split; [apply app_nil_r|]].
    intros rest; apply IH.
  - intros a IH out stk S.
    exists (postfixAtom a), [NEG]; split; [|split; [reflexivity|]].
    + constructor; [split; [reflexivity | simpl; lia] | constructor].
    + intros rest. cbn [app shuntingYardLoop].
      rewrite (shuntingYardStep_operator NEG _ _ eq_refl).
      pose proof (popOperators_pending NEG [] stk out (Forall_nil _) S) as Q.
      cbn [app] in Q. rewrite Q, app_nil_r.
      cbn [bind fst snd]. apply IH.
  - intros d ds out stk rest. reflexivity.
  - intros e IH out stk rest.
    cbn [app shuntingYardLoop shuntingYardStep isNumber isOperator isLParen bind fst snd].
    destruct (IH out (LParen :: stk) eq_refl) as (body & pend & P & E & R).
    rewrite <- app_assoc; cbn [app]. rewrite R.
    cbn [shuntingYardLoop shuntingYardStep isNumber isOperator isLParen isRParen].
    rewrite (popToLeftParen_pending 1 _ _ _ P).
    cbn [bind fst snd]. rewrite <- app_assoc, E. reflexivity.
Qed.

(** ** The evaluator on the postfix form of an expression *)

Lemma eval_binary (op : Token) (f : number -> number -> number)
      (postfix1 postfix2 : list Token) (v1 v2 : option number) :
  (forall (l r : number) (below : list number),
      evalStep op (r :: l :: below) = Ok (f l r :: below)) ->
  evalStatement postfix1 v1 -> evalStatement postfix2 v2 ->
  evalStatement (postfix1 ++ postfix2 ++ [op]) (value2 f v1 v2).
Proof.
  intros Hop H1 H2 rest stack.
  rewrite <- !app_assoc, H1.
  destruct v1 as [a|]; [|reflexivity].
  rewrite H2. destruct v2 as [b|]; [|reflexivity].
  cbn [app evalLoop value2]. rewrite Hop. reflexivity.
Qed.

Lemma eval_division (postfix1 postfix2 : list Token) (v1 v2 : option number) :
  evalStatement postfix1 v1 -> evalStatement postfix2 v2 ->
  evalStatement (postfix1 ++ postfix2 ++ [Slash]) (valueDiv v1 v2).
Proof.
  intros H1 H2 rest stack.
  rewrite <- !app_assoc, H1.
  destruct v1 as [a|]; [|reflexivity].
  rewrite H2. destruct v2 as [b|]; [|reflexivity].
  cbn [app evalLoop valueDiv evalStep isOperator applyOperator operand nth].
  destruct (strictEq b zero); reflexivity.
Qed.

Lemma evalLoop_postfix :
  (forall e : Expr, evalStatement (postfixExpr e) (valueExpr e)) /\
  (forall t : Term, evalStatement (postfixTerm t) (valueTerm t)) /\
  (forall f : Factor, evalStatement (postfixFactor f) (valueFactor f)) /\
  (forall a : Atom, evalStatement (postfixAtom a) (valueAtom a)).
Proof.
  apply syntax_mutind;
    cbn [postfixExpr postfixTerm postfixFactor postfixAtom
         valueExpr valueTerm valueFactor valueAtom].
  - intros t IH; exact IH.
  - intros e IHe t IHt. apply eval_binary; [reflexivity | |]; assumption.
  - intros e IHe t IHt. apply eval_binary; [reflexivity | |]; assumption.
  - intros f IH; exact IH.
  - intros t IHt f IHf. apply eval_binary; [reflexivity | |]; assumption.
  - intros t IHt f IHf. apply eval_division; assumption.
  - intros a IH; exact IH.
  - intros a IH rest stack. rewrite <- app_assoc, IH.
    destruct (valueAtom a) as [x|]; reflexivity.
  - intros d ds rest stack. reflexivity.
  - intros e IH; exact IH.
Qed.

(** ** The whole pipeline on the text of an expression *)

Lemma renderExpr_not_nil :
  (forall e : Expr, renderExpr e <> []) /\
  (forall t : Term, renderTerm t <> []) /\
  (forall f : Factor, renderFactor f <> []) /\
  (forall a : Atom, renderAtom a <> []).
Proof.
  apply syntax_mutind; cbn [renderExpr renderTerm renderFactor renderAtom];
    try (intros; assumption);
    try (intros; discriminate);
    intros; intros E; apply app_eq_nil in E as [_ E]; discriminate.
Qed.

Lemma tokenize_expression (expr : string) (e : Expr) :
  removeWhitespace (list_ascii_of_string expr) = renderExpr e ->
  tokenize expr = Ok (tokensExpr Minus e).
Proof.
  intros H; unfold tokenize; rewrite H.
  destruct (renderExpr e) as [|c cs] eqn:E.
  - destruct (proj1 renderExpr_not_nil e E).
  - rewrite <- E.
    pose proof (proj1 tokenize_render e [] [] eq_refl eq_refl) as T.
    rewrite app_nil_r in T. rewrite T. simp tokenizeLoop. reflexivity.
Qed.

Lemma toRPN_expression (e : Expr) :
  toRPN (tokensExpr Minus e) = Ok (postfixExpr e).
Proof.
  unfold toRPN, handleUnaryMinus.
  destruct (proj1 handleUnaryMinus_tokens e None [] eq_refl) as (l & _ & U).
  rewrite app_nil_r in U; rewrite U; cbn [handleUnaryMinusFrom]; rewrite app_nil_r.
  unfold shuntingYard.
  destruct (proj1 shuntingYard_tokens e [] [] eq_refl) as (body & pend & P & E & R).
  specialize (R []). rewrite app_nil_r in R. rewrite R.
  cbn [shuntingYardLoop bind fst snd app]. rewrite app_nil_r.
  rewrite (popRemaining_pending 1 _ _ P), E. reflexivity.
Qed.

Lemma evalRPN_expression (e : Expr) :
  evalRPN (postfixExpr e) =
  match valueExpr e with
  | Some x => Ok x
  | None => Err "Division by zero"%string
  end.
Proof.
  unfold evalRPN.
  pose proof (proj1 evalLoop_postfix e [] []) as V. rewrite app_nil_r in V.
  rewrite V. destruct (valueExpr e); reflexivity.
Qed.

Lemma evaluate_expression (expr : string) (e : Expr) :
  removeWhitespace (list_ascii_of_string expr) = renderExpr e ->
  evaluate expr =
  match valueExpr e with
  | Some x => Ok x
  | None => Err "Division by zero"%string
  end.
Proof.
  intros H; unfold evaluate.
  rewrite (tokenize_expression _ _ H); cbn [bind].
  rewrite toRPN_expression; cbn [bind].
  apply evalRPN_expression.
Qed.

(** C1.  For an expression built from integer literals, the binary
    operators [+ - * /] and parentheses, written with any whitespace,
    [calculate] returns the string of the value the expression has in
    infix arithmetic, where [*] and [/] bind tighter than [+] and [-] and
    operators of one level group left to right (and "ERROR: Division by
    zero" when the expression divides by zero and so has no value).
    In particular [calculate("2+3*4")] is ["14"] and
    [calculate("(2+3)*4")] is ["20"]. *)
Theorem calculate_infix_arithmetic :
  (forall (expr : string) (e : Expr),
      binaryOnlyExpr e = true ->
      removeWhitespace (list_ascii_of_string expr) = renderExpr e ->
      calculate expr =
      match valueExpr e with
      | Some x => formatResult x
      | None => "ERROR: Division by zero"%string
      end) /\
  calculate "2+3*4" = "14"%string /\
  calculate "(2+3)*4" = "20"%string.
Proof.
  split; [|split; reflexivity].
  intros expr e _ H; unfold calculate.
  rewrite (evaluate_expression _ _ H).
  destruct (valueExpr e); reflexivity.
Qed.

(** The expression [2 + 3*4], written with blanks, is an instance: its
    value is [2 + (3 * 4)], printed as ["14"]. *)
Lemma calculate_infix_arithmetic_witness :
  binaryOnlyExpr
    (EAdd (ETerm (TFactor (FAtom (ALit D2 []))))
          (TMul (TFactor (FAtom (ALit D3 []))) (FAtom (ALit D4 [])))) = true /\
  valueExpr
    (EAdd (ETerm (TFactor (FAtom (ALit D2 []))))
          (TMul (TFactor (FAtom (ALit D3 []))) (FAtom (ALit D4 [])))) =
    Some (add (ofZ 2) (mul (ofZ 3) (ofZ 4))) /\
  formatResult (add (ofZ 2) (mul (ofZ 3) (ofZ 4))) = "14"%string /\
  calculate " 2 + 3*4 " = formatResult (add (ofZ 2) (mul (ofZ 3) (ofZ 4))).
Proof.
  split; [reflexivity|split; [reflexivity|split; [vm_compute; reflexivity|]]].
  exact (proj1 calculate_infix_arithmetic " 2 + 3*4 "%string
           (EAdd (ETerm (TFactor (FAtom (ALit D2 []))))
                 (TMul (TFactor (FAtom (ALit D3 []))) (FAtom (ALit D4 []))))
           eq_refl eq_refl).
Defined.

(** X1.  The same holds with unary minus in front of a literal or of a
    parenthesised expression: [-a] is the negation of [a], applied before
    any binary operator next to it. *)
Theorem calculate_infix_with_unary_minus (expr : string) (e : Expr) :
  removeWhitespace (list_ascii_of_string expr) = renderExpr e ->
  calculate expr =
  match valueExpr e with
  | Some x => formatResult x
  | None => "ERROR: Division by zero"%string
  end.
Proof.
  intros H; unfold calculate.
  rewrite (evaluate_expression _ _ H).
  destruct (valueExpr e); reflexivity.
Qed.

(** [2*-4] is an instance: the minus applies to [4] alone. *)
Lemma calculate_infix_with_unary_minus_witness :
  valueExpr (ETerm (TMul (TFactor (FAtom (ALit D2 []))) (FNeg (ALit D4 [])))) =
    Some (mul (ofZ 2) (neg (ofZ 4))) /\
  calculate "2*-4" = formatResult (mul (ofZ 2) (neg (ofZ 4))).
Proof.
  split; [reflexivity|].
  exact (calculate_infix_with_unary_minus "2*-4"%string
           (ETerm (TMul (TFactor (FAtom (ALit D2 []))) (FNeg (ALit D4 []))))
           eq_refl).
Defined.

(** ** NEG on the operator stack *)

(** Against C4 read literally: in [- + 3] the [+] that follows the unary minus
    moves [NEG] to the output while the output is still empty, since the
    [while] pops every operator whose precedence is at least that of the
    incoming one. *)
Lemma NEG_popped_before_operand :
  ~ NEGStaysUntilOperand /\
  handleUnaryMinus [Minus; Plus; Num (ofZ 3)] = [NEG; Plus; Num (ofZ 3)] /\
  shuntingYardLoop [NEG] [] [] = Ok ([], [NEG]) /\
  shuntingYardLoop [NEG; Plus] [] [] = Ok ([NEG], [Plus]) /\
  toRPN [Minus; Plus; Num (ofZ 3)] = Ok [NEG; Num (ofZ 3); Plus].
Proof.
  split; [|repeat split].
  intros H.
  specialize (H [Minus; Plus; Num (ofZ 3)] [] [Num (ofZ 3)] Plus [NEG] [Plus]
                eq_refl eq_refl eq_refl).
  destruct H as [H|[]]; discriminate.
Qed.

(** C4, amended.  With a [NEG] on top of the operator stack, its operand
    (a literal or a parenthesised expression) is converted with that
    [NEG] still in place; the token after the operand, be it a binary
    operator, a [)] or the end of the input, first moves the [NEG] to the
    output, right behind the operand, and then goes on as if the [NEG] had
    not been there.  No token has a precedence above that of [NEG].  So
    for every expression in which each unary minus stands before a
    literal or a parenthesised expression, the postfix form has each
    [NEG] right behind its operand, and the result is the value with the
    negation applied to that operand alone. *)
Theorem NEG_binds_its_operand :
  (forall (a : Atom) (out stk rest : list Token),
      shuntingYardLoop (tokensAtom NEG a ++ rest) out (NEG :: stk) =
      shuntingYardLoop rest (out ++ postfixAtom a) (NEG :: stk)) /\
  (forall (op : Token) (out stk : list Token),
      isOperator op = true -> op <> NEG ->
      shuntingYardStep op out (NEG :: stk) = shuntingYardStep op (out ++ [NEG]) stk) /\
  (forall out stk : list Token,
      shuntingYardStep RParen out (NEG :: stk) =
      shuntingYardStep RParen (out ++ [NEG]) stk) /\
  (forall out stk : list Token,
      popRemaining out (NEG :: stk) = popRemaining (out ++ [NEG]) stk) /\
  (forall t : Token, precedence t <= precedence NEG) /\
  (forall (expr : string) (e : Expr),
      removeWhitespace (list_ascii_of_string expr) = renderExpr e ->
      (tokens <- tokenize expr ;; toRPN tokens) = Ok (postfixExpr e) /\
      calculate expr =
      match valueExpr e with
      | Some x => formatResult x
      | None => "ERROR: Division by zero"%string
      end).
Proof.
  split; [|split; [|split; [|split; [|split]]]].
  - intros a out stk rest. apply (proj2 (proj2 (proj2 shuntingYard_tokens))).
  - intros op out stk Hop Hneg.
    rewrite !(shuntingYardStep_operator _ _ _ Hop).
    destruct op; try discriminate; reflexivity.
  - intros out stk. reflexivity.
  - intros out stk. reflexivity.
  - intros t; destruct t; simpl; lia.
  - intros expr e H; split.
    + rewrite (tokenize_expression _ _ H); cbn [bind]. apply toRPN_expression.
    + unfold calculate. rewrite (evaluate_expression _ _ H).
      destruct (valueExpr e); reflexivity.
Qed.

(** In [-3+5] the [+] arrives with [NEG] on the stack and [3] in the
    output: it first moves [NEG] behind the [3]. *)
Lemma NEG_binds_its_operand_witness :
  shuntingYardStep Plus [Num (ofZ 3)] [NEG] =
    shuntingYardStep Plus [Num (ofZ 3); NEG] [] /\
  toRPN [Minus; Num (ofZ 3); Plus; Num (ofZ 5)] =
    Ok [Num (ofZ 3); NEG; Num (ofZ 5); Plus].
Proof.
  split; [|reflexivity].
  refine (proj1 (proj2 NEG_binds_its_operand) Plus [Num (ofZ 3)] [] eq_refl _).
  discriminate.
Defined.

(** A minus right after a unary minus: the second [NEG] comes in while
    the first is on top of the stack and moves it to the output, so the
    postfix form of [--3] starts with [NEG] and the evaluation finds no
    operand for it; written [-(-3)], the expression evaluates to [3]. *)
Lemma double_minus_is_rejected :
  toRPN [Minus; Minus; Num (ofZ 3)] = Ok [NEG; Num (ofZ 3); NEG] /\
  calculate "--3" = "ERROR: Malformed expression"%string /\
  calculate "-(-3)" = "3"%string.
Proof. repeat split; vm_compute; reflexivity. Qed.

(** ** Printing and reading numbers *)

Lemma same_eq (x y : number) : same x y = true -> x = y.
Proof.
  destruct x as [s1|s1| |s1 m1 e1], y as [s2|s2| |s2 m2 e2]; simpl;
    try discriminate; try reflexivity.
  - intros H; apply Bool.eqb_prop in H; congruence.
  - intros H; apply Bool.eqb_prop in H; congruence.
  - intros H. apply andb_true_iff in H as [H He].
    apply andb_true_iff in H as [Hs Hm].
    apply Bool.eqb_prop in Hs. apply Pos.eqb_eq in Hm. apply Z.eqb_eq in He.
    congruence.
Qed.

(** [x === y] holds for equal numbers and for two zeros only. *)
Lemma strictEq_true (x y : number) :
  strictEq x y = true ->
  x = y \/ exists s1 s2, x = S754_zero s1 /\ y = S754_zero s2.
Proof.
  unfold strictEq, SFeqb.
  destruct x as [s1|s1| |s1 m1 e1], y as [s2|s2| |s2 m2 e2]; simpl;
    try discriminate; try (destruct s1; discriminate);
    try (destruct s2; discriminate).
  - intros _; right; eauto.
  - destruct s1, s2; try discriminate; auto.
  - change (Pos.compare_cont Eq m1 m2) with (Pos.compare m1 m2).
    destruct s1, s2; try discriminate;
      destruct (Z.compare_spec e1 e2) as [->| |]; try discriminate;
      destruct (Pos.compare_spec m1 m2) as [->| |]; try discriminate;
      auto.
Qed.

Lemma toString_strictEq (x y : number) :
  strictEq x y = true -> toString x = toString y.
Proof.
  intros H. destruct (strictEq_true _ _ H) as [->|(s1 & s2 & -> & ->)];
    reflexivity.
Qed.

(** [formatResult] prints its argument: the [floor] branch is taken for
    numbers equal to their floor. *)
Lemma formatResult_toString (x : number) :
  formatResult x = string_of_list_ascii (toString x).
Proof.
  unfold formatResult. destruct (strictEq x (floor x)) eqn:E; [|reflexivity].
  rewrite (toString_strictEq _ _ E). reflexivity.
Qed.

(** The digits [String] chooses read back as the number printed. *)
Lemma candidate_sound (x : number) (num den n k : Z) (ds : list ascii) (p : Z) :
  candidate x num den n k = Some (ds, p) -> parseFloat (plain ds p) = x.
Proof.
  unfold candidate.
  set (sc := k - n).
  set (num' := if 0 <=? sc then num * 10 ^ sc else num).
  set (den' := if 0 <=? sc then den else den * 10 ^ (- sc)).
  set (lo := num' / den').
  destruct (match 2 * num' ?= (2 * lo + 1) * den' with
            | Lt => true | Gt => false | Eq => Z.even lo end);
    cbv zeta; intros H;
    repeat match type of H with
           | context [if same ?a x then _ else _] =>
               let E := fresh "E" in destruct (same a x) eqn:E
           end;
    try discriminate; injection H as <- <-; apply same_eq; assumption.
Qed.

Lemma shortest_sound (fuel : nat) (x : number) (num den n k : Z)
      (ds : list ascii) (p : Z) :
  shortest fuel x num den n k = Some (ds, p) -> parseFloat (plain ds p) = x.
Proof.
  revert k; induction fuel as [|fuel IH]; intros k; cbn [shortest];
    [discriminate|].
  destruct (candidate x num den n k) as [[ds' p']|] eqn:C.
  - intros H; injection H as -> ->. exact (candidate_sound _ _ _ _ _ _ _ C).
  - apply IH.
Qed.

Lemma digitsOf_sound (m : positive) (e : Z) (ds : list ascii) (n : Z) :
  digitsOf m e = Some (ds, n) -> parseFloat (plain ds n) = S754_finite false m e.
Proof. unfold digitsOf. apply shortest_sound. Qed.

(** ** Decimal notation *)

Lemma takeDigits_dropDigits (cs : list ascii) : cs = takeDigits cs ++ dropDigits cs.
Proof.
  induction cs as [|c cs IH]; cbn [takeDigits dropDigits app]; [reflexivity|].
  destruct (isDigit c); cbn [app]; [f_equal; exact IH | reflexivity].
Qed.

Lemma takeDigits_allDigits (cs : list ascii) : forallb isDigit (takeDigits cs) = true.
Proof.
  induction cs as [|c cs IH]; cbn [takeDigits forallb]; [reflexivity|].
  destruct (isDigit c) eqn:E; cbn [forallb]; [rewrite E, IH|]; reflexivity.
Qed.

(** The two shapes of a decimal numeral. *)
Lemma isDecimal_shape (cs : list ascii) :
  isDecimal cs = true ->
  exists ip fp : list ascii,
    forallb isDigit ip = true /\ forallb isDigit fp = true /\
    headIsDigit cs = true /\
    (cs = ip \/ cs = ip ++ "."%char :: fp).
Proof.
  unfold isDecimal. intros H.
  pose proof (takeDigits_dropDigits cs) as S.
  pose proof (takeDigits_allDigits cs) as D.
  assert (Hd : headIsDigit cs = true).
  { destruct cs as [|c cs]; [discriminate|]. cbn [takeDigits] in H. cbn [headIsDigit].
    destruct (isDigit c); [reflexivity | discriminate]. }
  destruct (takeDigits cs) as [|d ip]; [discriminate|].
  destruct (dropDigits cs) as [|c fp].
  - exists (d :: ip), []; rewrite app_nil_r in S; auto.
  - apply andb_true_iff in H as [H F]. apply andb_true_iff in H as [C _].
    apply Ascii.eqb_eq in C; subst c.
    exists (d :: ip), fp; auto.
Qed.

Lemma isDecimal_scanNumber (cs : list ascii) :
  isDecimal cs = true -> scanNumber false cs = (cs, []).
Proof.
  intros H. destruct (isDecimal_shape _ H) as (ip & fp & Di & Df & _ & [->| ->]).
  - pose proof (scanNumber_digits ip [] Di eq_refl eq_refl) as S.
    rewrite app_nil_r in S. exact S.
  - pose proof (scanNumber_digits_dot_digits ip fp [] Di Df eq_refl) as S.
    rewrite app_nil_r in S. exact S.
Qed.

(** The tokenizer reads a decimal numeral as one number. *)
Lemma tokenizeLoop_decimal (cs : list ascii) (tokens : list Token) :
  isDecimal cs = true ->
  tokenizeLoop cs tokens = Ok (tokens ++ [Num (parseFloat cs)]).
Proof.
  intros H.
  assert (N : startsNumber cs = true).
  { destruct (isDecimal_shape _ H) as (_ & _ & _ & _ & Hd & _).
    destruct cs as [|c cs]; [discriminate|]. cbn [headIsDigit] in Hd.
    cbn [startsNumber]. rewrite Hd. reflexivity. }
  rewrite (tokenizeLoop_number _ _ N), (isDecimal_scanNumber _ H).
  cbn [fst snd]. simp tokenizeLoop. reflexivity.
Qed.

Lemma isDigit_not_space (c : ascii) : isDigit c = true -> isSpace c = false.
Proof.
  unfold isDigit, isSpace. set (n := N_of_ascii c).
  destruct (N.leb_spec 48 n), (N.leb_spec n 57); cbn [andb]; try discriminate.
  intros _.
  destruct (N.leb_spec 9 n), (N.leb_spec n 13), (N.eqb_spec n 32), (N.eqb_spec n 160);
    cbn [andb orb]; try reflexivity; lia.
Qed.

Lemma removeWhitespace_digits (ds : list ascii) :
  forallb isDigit ds = true -> removeWhitespace ds = ds.
Proof.
  unfold removeWhitespace.
  induction ds as [|d ds IH]; cbn [forallb filter]; [reflexivity|].
  intros H; apply andb_true_iff in H as [Hd H].
  rewrite (isDigit_not_space _ Hd); cbn [negb]. rewrite (IH H). reflexivity.
Qed.

Lemma removeWhitespace_decimal (cs : list ascii) :
  isDecimal cs = true -> removeWhitespace cs = cs.
Proof.
  intros H. destruct (isDecimal_shape _ H) as (ip & fp & Di & Df & _ & [->| ->]).
  - apply removeWhitespace_digits, Di.
  - unfold removeWhitespace. rewrite filter_app. cbn [filter].
    change (isSpace "."%char) with false; cbn [negb].
    fold (removeWhitespace ip); fold (removeWhitespace fp).
    rewrite (removeWhitespace_digits _ Di), (removeWhitespace_digits _ Df).
    reflexivity.
Qed.

Lemma isDecimal_chars (cs : list ascii) (c : ascii) :
  isDecimal cs = true -> In c cs -> isDigit c = true \/ c = "."%char.
Proof.
  intros H. destruct (isDecimal_shape _ H) as (ip & fp & Di & Df & _ & E).
  rewrite forallb_forall in Di, Df.
  destruct E as [->| ->]; [auto|].
  intros I; apply in_app_or in I as [I|[<-|I]]; auto.
Qed.

(** Exponent notation is not decimal notation, with or without its first
    character. *)
Lemma expo_not_decimal (ds : list ascii) (n : Z) :
  isDecimal (expo ds n) = false /\
  forall c r, expo ds n = c :: r -> isDecimal r = false.
Proof.
  assert (E : forall cs, In "e"%char cs -> isDecimal cs = false).
  { intros cs I. destruct (isDecimal cs) eqn:D; [|reflexivity].
    destruct (isDecimal_chars _ _ D I) as [H|H]; discriminate. }
  unfold expo.
  set (tail := "e"%char :: _).
  assert (T : In "e"%char tail) by (left; reflexivity).
  assert (A : forall l, In "e"%char (l ++ tail))
    by (intros l; apply in_or_app; right; exact T).
  destruct ds as [|d [|d' ds]].
  - split; [apply E, T|]. subst tail. intros c r H; injection H as _ <-.
    destruct (n - 1 <? 0); reflexivity.
  - split; [apply E; right; exact T|].
    intros c r H; injection H as _ <-. apply E, T.
  - split; [apply E; right; right; apply (A (d' :: ds))|].
    intros c r H; injection H as _ <-.
    apply E; right; apply (A (d' :: ds)).
Qed.

(** ** Feeding a result back *)

Lemma toStringPos_read_back (m : positive) (e : Z) :
  (isDecimal (toStringPos m e) = true ->
   parseFloat (toStringPos m e) = S754_finite false m e) /\
  (forall r, toStringPos m e = "-"%char :: r -> isDecimal r = false).
Proof.
  unfold toStringPos.
  destruct (digitsOf m e) as [[ds n]|] eqn:D.
  - pose proof (digitsOf_sound _ _ _ _ D) as S.
    destruct ((-6 <? n) && (n <=? 21))%bool.
    + split; [intros _; exact S|].
      intros r H. rewrite H in S. discriminate.
    + split; [|apply expo_not_decimal].
      intros H. rewrite (proj1 (expo_not_decimal ds n)) in H. discriminate.
  - split; [discriminate|]. intros r H; discriminate.
Qed.

Lemma evaluate_decimal (cs : list ascii) :
  isDecimal cs = true ->
  evaluate (string_of_list_ascii cs) = Ok (parseFloat cs).
Proof.
  intros H. unfold evaluate, tokenize.
  rewrite list_ascii_of_string_of_list_ascii, (removeWhitespace_decimal _ H).
  destruct cs as [|c cs]; [discriminate|].
  rewrite (tokenizeLoop_decimal _ _ H). reflexivity.
Qed.

Lemma evaluate_negative_decimal (cs : list ascii) :
  isDecimal cs = true ->
  evaluate (string_of_list_ascii ("-"%char :: cs)) = Ok (neg (parseFloat cs)).
Proof.
  intros H. unfold evaluate, tokenize.
  rewrite list_ascii_of_string_of_list_ascii.
  unfold removeWhitespace; cbn [filter].
  change (isSpace "-"%char) with false; cbn [negb].
  fold (removeWhitespace cs). rewrite (removeWhitespace_decimal _ H).
  rewrite (tokenizeLoop_symbol _ _ _ Minus) by reflexivity.
  rewrite (tokenizeLoop_decimal _ _ H). reflexivity.
Qed.

(** A number printed in decimal notation is read back by the pipeline as
    a number that prints the same. *)
Lemma evaluate_toString (x : number) :
  decimalNotation (string_of_list_ascii (toString x)) = true ->
  exists y, evaluate (string_of_list_ascii (toString x)) = Ok y /\
            toString y = toString x.
Proof.
  unfold decimalNotation. rewrite list_ascii_of_string_of_list_ascii.
  destruct x as [s|s| |s m e].
  - intros _. exists zero; split; reflexivity.
  - destruct s; discriminate.
  - discriminate.
  - destruct (toStringPos_read_back m e) as [R1 R2].
    destruct s; cbn [toString app].
    + change (Ascii.eqb "-" "-") with true; cbv iota.
      intros H. exists (neg (parseFloat (toStringPos m e))).
      split; [apply evaluate_negative_decimal, H|].
      rewrite (R1 H). reflexivity.
    + destruct (toStringPos m e) as [|c r] eqn:T; [discriminate|].
      destruct (Ascii.eqb_spec c "-"%char) as [->|_].
      * intros H. rewrite (R2 r eq_refl) in H. discriminate.
      * intros H. exists (parseFloat (c :: r)).
        split; [apply evaluate_decimal, H|].
        rewrite (R1 H). cbn [toString app]. rewrite T. reflexivity.
Qed.

(** Against C10 read literally: [1/10000000] evaluates to a number printed in
    exponent notation, ["1e-7"], and the tokenizer rejects the [e]; the
    same happens from [10^21] on, printed ["1e+21"]. *)
Lemma exponent_notation_not_read_back :
  ~ formattingReadsBack /\
  calculate "1/10000000" = "1e-7"%string /\
  tokenize "1e-7" = Err "Invalid character"%string /\
  calculate "1e-7" = "ERROR: Invalid character"%string /\
  calculate "1000000000000000000000" = "1e+21"%string /\
  calculate "1e+21" = "ERROR: Invalid character"%string.
Proof.
  split; [|repeat split; vm_compute; reflexivity].
  intros H.
  destruct (H "1/10000000"%string (div (ofZ 1) (ofZ 10000000)))
    as (y & T & _); [vm_compute; reflexivity|].
  vm_compute in T. discriminate.
Qed.

(** C10, amended.  When the formatted result is in decimal notation
    (digits, possibly a dot and more digits, possibly after a minus
    sign), [calculate] maps it to itself: so [calculate] applied to its
    own answer returns that answer, and a result without sign tokenizes
    to a single number that formats to the same string. *)
Theorem calculate_idempotent_on_decimal :
  (forall x : number,
      decimalNotation (formatResult x) = true ->
      calculate (formatResult x) = formatResult x) /\
  (forall expr : string,
      decimalNotation (calculate expr) = true ->
      calculate (calculate expr) = calculate expr) /\
  (forall x : number,
      isDecimal (list_ascii_of_string (formatResult x)) = true ->
      exists y, tokenize (formatResult x) = Ok [Num y] /\
                formatResult y = formatResult x).
Proof.
  assert (A : forall x : number,
             decimalNotation (formatResult x) = true ->
             calculate (formatResult x) = formatResult x).
  { intros x. rewrite formatResult_toString. intros H.
    destruct (evaluate_toString _ H) as (y & E & T).
    unfold calculate. rewrite E, formatResult_toString, T. reflexivity. }
  split; [exact A|split].
  - intros expr. unfold calculate at 1 3 4.
    destruct (evaluate expr) as [x|m]; [apply A|].
    discriminate.
  - intros x. rewrite formatResult_toString, list_ascii_of_string_of_list_ascii.
    intros H.
    assert (D : decimalNotation (string_of_list_ascii (toString x)) = true).
    { unfold decimalNotation. rewrite list_ascii_of_string_of_list_ascii.
      destruct (toString x) as [|c r]; [discriminate|].
      destruct (Ascii.eqb_spec c "-"%char) as [->|_]; [discriminate | exact H]. }
    destruct (evaluate_toString _ D) as (y & E & T).
    rewrite (evaluate_decimal _ H) in E. injection E as <-.
    exists (parseFloat (toString x)); split.
    + unfold tokenize.
      rewrite list_ascii_of_string_of_list_ascii, (removeWhitespace_decimal _ H).
      destruct (toString x) as [|c r] eqn:Tx; [discriminate|].
      rewrite (tokenizeLoop_decimal _ _ H). reflexivity.
    + rewrite formatResult_toString, T. reflexivity.
Qed.

(** [1/4] and [2*-4] are instances: their results ["0.25"] and ["-8"] are
    in decimal notation and [calculate] maps them to themselves. *)
Lemma calculate_idempotent_on_decimal_witness :
  calculate "1/4" = "0.25"%string /\
  decimalNotation (calculate "1/4") = true /\
  calculate (calculate "1/4") = calculate "1/4" /\
  calculate "2*-4" = "-8"%string /\
  decimalNotation (calculate "2*-4") = true /\
  calculate (calculate "2*-4") = calculate "2*-4".
Proof.
  split; [vm_compute; reflexivity|].
  split; [vm_compute; reflexivity|].
  split; [apply (proj1 (proj2 calculate_idempotent_on_decimal));
          vm_compute; reflexivity|].
  split; [vm_compute; reflexivity|].
  split; [vm_compute; reflexivity|].
  apply (proj1 (proj2 calculate_idempotent_on_decimal)); vm_compute; reflexivity.
Defined.

(** ** Further properties of the pipeline *)

(** X2.  [formatResult] prints its argument as [String] does: the test
    [x === Math.floor(x)] selects between two ways of printing the same
    string. *)
Theorem formatResult_prints_argument (x : number) :
  formatResult x = string_of_list_ascii (toString x).
Proof. exact (formatResult_toString x). Qed.

(** X3.  For every expression of the grammar, unary minus included,
    [toRPN] turns the tokens of the text into the postfix form of the
    expression. *)
Theorem toRPN_postfix (e : Expr) :
  toRPN (tokensExpr Minus e) = Ok (postfixExpr e).
Proof. exact (toRPN_expression e). Qed.

(** X4.  [evalRPN] on the postfix form of an expression returns its
    value, and throws "Division by zero" when it has none. *)
Theorem evalRPN_postfix (e : Expr) :
  evalRPN (postfixExpr e) =
  match valueExpr e with
  | Some x => Ok x
  | None => Err "Division by zero"%string
  end.
Proof. exact (evalRPN_expression e). Qed.

(** *** Mismatched parentheses, read off the input *)

Lemma popOperators_stack (token : Token) (out stk : list Token) :
  forallb stackToken stk = true ->
  forallb stackToken (snd (popOperators token out stk)) = true /\
  openParens (snd (popOperators token out stk)) = openParens stk.
Proof.
  revert out; induction stk as [|top stk IH]; intros out G; cbn [popOperators].
  - split; reflexivity.
  - cbn [forallb] in G. apply andb_true_iff in G as [Gt G].
    destruct (negb (isLParen top) && isOperator top
              && (precedence token <=? precedence top))%bool eqn:E.
    + destruct (IH (out ++ [top]) G) as [I1 I2]. split; [exact I1|].
      rewrite I2. unfold openParens; cbn [filter].
      destruct (isLParen top); [discriminate | reflexivity].
    + cbn [snd forallb]. rewrite Gt, G. auto.
Qed.

Lemma popToLeftParen_stack (out stk : list Token) :
  forallb stackToken stk = true ->
  forallb stackToken (snd (fst (popToLeftParen out stk))) = true /\
  (if snd (popToLeftParen out stk)
   then openParens stk = S (openParens (snd (fst (popToLeftParen out stk))))
   else openParens stk = 0%nat).
Proof.
  revert out; induction stk as [|op stk IH]; intros out G; cbn [popToLeftParen].
  - split; reflexivity.
  - cbn [forallb] in G. apply andb_true_iff in G as [Gt G].
    unfold openParens; cbn [filter].
    destruct (isLParen op); cbn [fst snd List.length]; [auto|].
    apply IH, G.
Qed.

Lemma popRemaining_failed (out stk : list Token) :
  forallb stackToken stk = true ->
  failed (popRemaining out stk) = negb (Nat.eqb (openParens stk) 0).
Proof.
  revert out; induction stk as [|op stk IH]; intros out G; cbn [popRemaining].
  - reflexivity.
  - cbn [forallb] in G. apply andb_true_iff in G as [Gt G].
    unfold openParens; cbn [filter].
    destruct op; try discriminate; cbn [isLParen isRParen orb List.length];
      try (apply IH, G); reflexivity.
Qed.

Lemma shuntingYardLoop_failed (tokens out stk : list Token) :
  forallb stackToken stk = true ->
  failed (st <- shuntingYardLoop tokens out stk ;; popRemaining (fst st) (snd st)) =
  negb (parenDepthOk (openParens stk) tokens).
Proof.
  revert out stk; induction tokens as [|t tokens IH]; intros out stk G.
  - cbn [shuntingYardLoop bind fst snd parenDepthOk]. apply popRemaining_failed, G.
  - cbn [shuntingYardLoop].
    assert (O : isOperator t = true ->
                failed (st <- (st' <- shuntingYardStep t out stk ;;
                               shuntingYardLoop tokens (fst st') (snd st')) ;;
                        popRemaining (fst st) (snd st)) =
                negb (parenDepthOk (openParens stk) tokens)).
    { intros Hop. rewrite (shuntingYardStep_operator _ _ _ Hop); cbn [bind fst snd].
      destruct (popOperators_stack t out stk G) as [G' C].
      rewrite IH.
      - unfold openParens in *; cbn [filter].
        replace (isLParen t) with false
          by (destruct t; try reflexivity; discriminate).
        rewrite C; reflexivity.
      - cbn [forallb]. rewrite G'. unfold stackToken. rewrite Hop. reflexivity. }
    destruct t; try (exact (O eq_refl)); clear O.
    + cbn [shuntingYardStep isNumber bind fst snd parenDepthOk]. apply IH, G.
    + cbn [shuntingYardStep isNumber isOperator isLParen bind fst snd parenDepthOk].
      rewrite IH by (cbn [forallb]; rewrite G; reflexivity). reflexivity.
    + cbn [shuntingYardStep isNumber isOperator isLParen isRParen parenDepthOk].
      destruct (popToLeftParen_stack out stk G) as [G' C].
      destruct (popToLeftParen out stk) as [[o s] [|]]; cbn [fst snd bind] in *.
      * rewrite C. apply IH, G'.
      * rewrite C. reflexivity.
Qed.

(** X5.  [shuntingYard] throws exactly on token sequences whose
    parentheses do not match: some [)] closes nothing, or some [(] is
    never closed. *)
Theorem shuntingYard_fails_iff_unbalanced (tokens : list Token) :
  failed (shuntingYard tokens) = negb (balanced tokens).
Proof. exact (shuntingYardLoop_failed tokens [] [] eq_refl). Qed.

(** *** Malformed postfix sequences *)

Lemma evalStep_malformed (tok : Token) (stack : list number) :
  evalStep tok stack = Err "Malformed expression"%string <->
  isOperator tok = true /\ (List.length stack < operandsTaken tok)%nat.
Proof.
  split.
  - destruct tok; cbn [evalStep isOperator operandsTaken]; try discriminate;
      destruct stack as [|r [|l below]];
      cbn [bind applyOperator operand nth List.length];
      try discriminate; try (intros _; split; [reflexivity | lia]).
    destruct (strictEq r zero); discriminate.
  - intros [Hop Hlen].
    destruct tok; try discriminate;
      destruct stack as [|r [|l below]]; try reflexivity;
      cbn [List.length operandsTaken] in Hlen; lia.
Qed.

(** X6.  [evalRPN] throws "Malformed expression" exactly when an
    operator finds fewer values on the stack than it takes, or when the
    number of values left at the end is not one. *)
Theorem evalRPN_malformed_exactly (rpn : list Token) :
  evalRPN rpn = Err "Malformed expression"%string <->
  (exists pre tok post stack,
      rpn = pre ++ tok :: post /\ evalLoop pre [] = Ok stack /\
      isOperator tok = true /\
      (List.length stack < operandsTaken tok)%nat) \/
  (exists stack, evalLoop rpn [] = Ok stack /\ List.length stack <> 1%nat).
Proof.
  unfold evalRPN; split.
  - intros H. apply bind_Err_inv in H as [H | (s & Hs & H)].
    + left. apply evalLoop_Err_inv in H as (pre & tok & post & s & -> & Hpre & Hstep).
      exists pre, tok, post, s. split; [reflexivity|split; [exact Hpre|]].
      apply evalStep_malformed, Hstep.
    + right. exists s; split; [exact Hs|].
      destruct s as [|x [|y s]]; cbn [List.length]; try discriminate; lia.
  - intros [(pre & tok & post & s & -> & Hpre & Hop & Hlen)|(s & Hs & Hlen)].
    + rewrite evalLoop_app, Hpre. cbn [bind evalLoop].
      rewrite (proj2 (evalStep_malformed tok s) (conj Hop Hlen)). reflexivity.
    + rewrite Hs. cbn [bind].
      destruct s as [|x [|y s]]; try reflexivity. cbn in Hlen; lia.
Qed.
